(** * Shiritori: the game engine of [game.py], embedded and verified

    Python strings are sequences of Unicode code points; a one-character
    string is compared, ordered and indexed by its code point.  We model a
    [str] as the list of its code points and keep the names of [game.py]. *)

From Stdlib Require Import ZArith List Bool Lia PeanoNat.
Import ListNotations.

Local Open Scope Z_scope.

(** ** Code points and strings *)

Definition char := Z.
Definition str := list char.

(** The values of [unicodedata.lookup] used by the program. *)
Definition HIRAGANA_LETTER_SMALL_A : char := 0x3041.
Definition HIRAGANA_LETTER_SMALL_TU : char := 0x3063.
Definition HIRAGANA_LETTER_SMALL_YA : char := 0x3083.
Definition HIRAGANA_LETTER_YA : char := 0x3084.
Definition HIRAGANA_LETTER_SMALL_YU : char := 0x3085.
Definition HIRAGANA_LETTER_YU : char := 0x3086.
Definition HIRAGANA_LETTER_SMALL_YO : char := 0x3087.
Definition HIRAGANA_LETTER_YO : char := 0x3088.
Definition HIRAGANA_LETTER_N : char := 0x3093.
Definition HIRAGANA_DIGRAPH_YORI : char := 0x309F.
Definition KATAKANA_HIRAGANA_DOUBLE_HYPHEN : char := 0x30A0.
Definition KATAKANA_LETTER_SMALL_A : char := 0x30A1.
Definition KATAKANA_LETTER_SMALL_TU : char := 0x30C3.
Definition KATAKANA_LETTER_N : char := 0x30F3.
Definition KATAKANA_MIDDLE_DOT : char := 0x30FB.
Definition KATAKANA_HIRAGANA_PROLONGED_SOUND_MARK : char := 0x30FC.
Definition KATAKANA_DIGRAPH_KOTO : char := 0x30FF.

(** [chr i] is defined on [range(0x110000)] and raises [ValueError]
    elsewhere. *)
Definition chr_defined (i : Z) : bool := (0 <=? i) && (i <? 0x110000).

Definition str_eqb (a b : str) : bool :=
  if list_eq_dec Z.eq_dec a b then true else false.

(** ** Script classifiers and the normalizer *)

(** [all(c >= min_code and c <= max_code for c in text)] *)
Definition is_hiragana (text : str) : bool :=
  let min_code := HIRAGANA_LETTER_SMALL_A in
  let max_code := HIRAGANA_DIGRAPH_YORI in
  forallb (fun c => (c >=? min_code) && (c <=? max_code)) text.

Definition is_katakana (text : str) : bool :=
  let min_code := KATAKANA_HIRAGANA_DOUBLE_HYPHEN in
  let max_code := KATAKANA_DIGRAPH_KOTO in
  forallb (fun c => (c >=? min_code) && (c <=? max_code)) text.

(** The character-wise body of [katakana_to_hiragana]:
    [chr(ord(h_sa) + ord(c) - ord(k_sa)) if is_katakana(c) and
    ord(c) <= ord(k_n) else c]. *)
Definition katakana_to_hiragana_char (c : char) : char :=
  let h_sa := HIRAGANA_LETTER_SMALL_A in
  let k_sa := KATAKANA_LETTER_SMALL_A in
  let k_n := KATAKANA_LETTER_N in
  if is_katakana [c] && (c <=? k_n) then h_sa + c - k_sa else c.

(** [''.join(... for c in text)]: every piece is a one-character string. *)
Definition katakana_to_hiragana (text : str) : str :=
  map katakana_to_hiragana_char text.

(** The code points the guard lets through to [chr]. *)
Definition shifted (c : char) : bool :=
  is_katakana [c] && (c <=? KATAKANA_LETTER_N).

(** ** Python values used by the engine *)

(** [GameWord = collections.namedtuple('GameWord', 'kanji kana rank is_noun')] *)
Record GameWord := mkGameWord {
  kanji : str;
  kana : str;
  rank : Z;
  is_noun : bool
}.

(** Tuple equality: field by field. *)
Definition GameWord_eqb (a b : GameWord) : bool :=
  str_eqb (kanji a) (kanji b) && str_eqb (kana a) (kana b) &&
  (rank a =? rank b) && Bool.eqb (is_noun a) (is_noun b).

(** The five messages an [InvalidWordException] is raised with; the
    arguments are those of [message.format]. *)
Inductive invalid_word :=
| NotLastMora (text mora : str)
| AlreadySeen (text : str)
| NotANoun (text kanji : str)
| EndsWithN (text : str)
| GiveUp.

Inductive exn :=
| RuntimeError
| IndexError
| KeyError (key : str)
| UnknownWordException (text : str)
| InvalidWordException (msg : invalid_word).

Inductive result (A : Type) :=
| Returned (a : A)
| Raised (e : exn).
Arguments Returned {A} a.
Arguments Raised {A} e.

(** [s[0]] and [s[-1]] on a string give a one-character string. *)
Definition str_first (s : str) : result str :=
  match s with
  | [] => Raised IndexError
  | c :: _ => Returned [c]
  end.

Fixpoint str_last (s : str) : result str :=
  match s with
  | [] => Raised IndexError
  | [c] => Returned [c]
  | _ :: s' => str_last s'
  end.

Fixpoint list_last {A} (l : list A) : result A :=
  match l with
  | [] => Raised IndexError
  | [a] => Returned a
  | _ :: l' => list_last l'
  end.

Definition list_first {A} (l : list A) : result A :=
  match l with
  | [] => Raised IndexError
  | a :: _ => Returned a
  end.

Fixpoint startswith (s prefix : str) : bool :=
  match prefix, s with
  | [], _ => true
  | p :: prefix', c :: s' => (c =? p) && startswith s' prefix'
  | _ :: _, [] => false
  end.

Definition endswith (s suffix : str) : bool :=
  startswith (rev s) (rev suffix).

(** [str.translate(table)] with a table from code points to strings. *)
Definition translate (table : char -> option str) (s : str) : str :=
  flat_map (fun c => match table c with Some t => t | None => [c] end) s.

(** [random.choice(seq)] where [r] is the integer drawn by the generator,
    reduced to an index of [seq]. *)
Definition choice {A} (r : nat) (seq : list A) : result A :=
  match seq with
  | [] => Raised IndexError
  | a :: _ => Returned (nth (r mod length seq)%nat seq a)
  end.

(** A [dict] from strings to words: insertion ordered, a key keeps the
    position of its first insertion and the value of its last. *)
Definition dict := list (str * GameWord).

Fixpoint dict_set (k : str) (v : GameWord) (d : dict) : dict :=
  match d with
  | [] => [(k, v)]
  | (k', v') :: d' =>
      if str_eqb k' k then (k', v) :: d' else (k', v') :: dict_set k v d'
  end.

Fixpoint dict_get (d : dict) (k : str) : option GameWord :=
  match d with
  | [] => None
  | (k', v) :: d' => if str_eqb k' k then Some v else dict_get d' k
  end.

Definition dict_contains (k : str) (d : dict) : bool :=
  match dict_get d k with Some _ => true | None => false end.

Definition dict_getitem (d : dict) (k : str) : result GameWord :=
  match dict_get d k with Some v => Returned v | None => Raised (KeyError k) end.

Definition dict_keys (d : dict) : list str := map fst d.
Definition dict_values (d : dict) : list GameWord := map snd d.

(** [word in seen] *)
Definition word_in (w : GameWord) (l : list GameWord) : bool :=
  existsb (GameWord_eqb w) l.

(** [max(words, key=lambda x: x.rank)]: the first word of greatest rank. *)
Definition max_by_rank (w : GameWord) (ws : list GameWord) : GameWord :=
  fold_left (fun best x => if rank x >? rank best then x else best) ws w.

(** ** The engine *)

Definition hiragana_n : str := [HIRAGANA_LETTER_N].

(** [Game.small_to_big] *)
Definition small_to_big (c : char) : option str :=
  if c =? HIRAGANA_LETTER_SMALL_YA then Some [HIRAGANA_LETTER_YA]
  else if c =? HIRAGANA_LETTER_SMALL_YU then Some [HIRAGANA_LETTER_YU]
  else if c =? HIRAGANA_LETTER_SMALL_YO then Some [HIRAGANA_LETTER_YO]
  else None.

Record Game := mkGame {
  words : list GameWord;
  known_words : dict;
  seen_words : list GameWord;
  player_score : Z
}.

(** Methods run in a state and exception monad over the instance. *)
Definition M (A : Type) : Type := Game -> result A * Game.

Definition ret {A} (a : A) : M A := fun g => (Returned a, g).
Definition raise {A} (e : exn) : M A := fun g => (Raised e, g).
Definition lift {A} (r : result A) : M A := fun g => (r, g).
Definition gets {A} (f : Game -> A) : M A := fun g => (Returned (f g), g).
Definition bind {A B} (m : M A) (k : A -> M B) : M B :=
  fun g =>
    match m g with
    | (Returned a, g') => k a g'
    | (Raised e, g') => (Raised e, g')
    end.

Notation "x <- m ;; k" := (bind m (fun x => k))
  (at level 61, m at next level, right associativity).
Notation "m ;;; k" := (bind m (fun _ => k))
  (at level 61, right associativity).

(** [self.seen_words.append(word)] *)
Definition _update_seen (word : GameWord) : M unit :=
  fun g =>
    (Returned tt,
     mkGame (words g) (known_words g) (seen_words g ++ [word])
            (player_score g)).

(** [self.player_score += 1] *)
Definition incr_player_score : M unit :=
  fun g =>
    (Returned tt,
     mkGame (words g) (known_words g) (seen_words g) (player_score g + 1)).

(** [mora = self.seen_words[-1].kana[-1]; mora = mora.translate(...)] *)
Definition last_mora : M str :=
  seen <- gets seen_words ;;
  last <- lift (list_last seen) ;;
  mora <- lift (str_last (kana last)) ;;
  ret (translate small_to_big mora).

Definition _validate (text : str) : M unit :=
  mora <- last_mora ;;
  t0 <- lift (str_first text) ;;
  if negb (str_eqb t0 mora) then
    raise (InvalidWordException (NotLastMora text mora))
  else
  known <- gets known_words ;;
  if negb (dict_contains text known) then
    raise (UnknownWordException text)
  else
  word <- lift (dict_getitem known text) ;;
  seen <- gets seen_words ;;
  if word_in word seen then
    raise (InvalidWordException (AlreadySeen text))
  else if negb (is_noun word) then
    raise (InvalidWordException (NotANoun text (kanji word)))
  else if endswith text hiragana_n then
    raise (InvalidWordException (EndsWithN text))
  else ret tt.

(** The generator expression of [next_word]. *)
Definition candidate (mora : str) (seen : list GameWord) (word : GameWord)
  : bool :=
  startswith (kana word) mora &&
  negb (word_in word seen) &&
  is_noun word &&
  negb (endswith (kana word) hiragana_n).

(** [r] is the draw of [random.choice]. *)
Definition next_word (r : nat) : M GameWord :=
  seen <- gets seen_words ;;
  if (length seen =? 1)%nat then lift (list_first seen)
  else
  mora <- last_mora ;;
  known <- gets known_words ;;
  let gen := filter (candidate mora seen) (dict_values known) in
  let candidates := firstn 10 gen in
  match candidates with
  | _ :: _ =>
      new_word <- lift (choice r candidates) ;;
      _update_seen new_word ;;;
      ret new_word
  | [] => raise (InvalidWordException GiveUp)
  end.

Definition send_word (text : str) : M GameWord :=
  let text := katakana_to_hiragana text in
  _validate text ;;;
  known <- gets known_words ;;
  word <- lift (dict_getitem known text) ;;
  incr_player_score ;;;
  _update_seen word ;;;
  ret word.

(** The dict comprehension of [__init__]. *)
Definition build_known_words (ws : list GameWord) (max_rank : Z) : dict :=
  fold_left
    (fun d w =>
       if rank w <=? max_rank then dict_set (katakana_to_hiragana (kana w)) w d
       else d)
    ws [].

(** [first.is_noun and first.kana[-1] != 'ん'] *)
Definition initial_ok (first : GameWord) : result bool :=
  if is_noun first then
    match str_last (kana first) with
    | Returned c => Returned (negb (str_eqb c hiragana_n))
    | Raised e => Raised e
    end
  else Returned false.

(** The [while True] loop of [__init__]: [rnd n] is the [n]-th draw of the
    generator, [fuel] bounds the iterations and [None] means that the loop
    has not left within [fuel] iterations. *)
Fixpoint pick_initial (fuel : nat) (rnd : nat -> nat) (known : dict)
  : option (result GameWord) :=
  match fuel with
  | O => None
  | S fuel' =>
      match choice (rnd O) (dict_keys known) with
      | Raised e => Some (Raised e)
      | Returned key =>
          match dict_getitem known key with
          | Raised e => Some (Raised e)
          | Returned first =>
              match initial_ok first with
              | Raised e => Some (Raised e)
              | Returned true => Some (Returned first)
              | Returned false =>
                  pick_initial fuel' (fun n => rnd (S n)) known
              end
          end
      end
  end.

(** The index [__init__] builds from a non-empty word list: the default
    [max_rank] is the rank of [max(words, key=...)]. *)
Definition initial_index (w0 : GameWord) (ws' : list GameWord)
    (max_rank : option Z) : dict :=
  let max_rank :=
    match max_rank with
    | None => rank (max_by_rank w0 ws')
    | Some m => m
    end in
  build_known_words (w0 :: ws') max_rank.

(** [Game.__init__(words, max_rank)] *)
Definition Game_init (fuel : nat) (rnd : nat -> nat)
    (ws : list GameWord) (max_rank : option Z) : option (result Game) :=
  match ws with
  | [] => Some (Raised RuntimeError)
  | w0 :: ws' =>
      let known := initial_index w0 ws' max_rank in
      match pick_initial fuel rnd known with
      | None => None
      | Some (Raised e) => Some (Raised e)
      | Some (Returned first) =>
          Some (Returned (snd (_update_seen first (mkGame ws known [] 0))))
      end
  end.

(** The states a game can be in: a constructed instance, then any
    successful calls of [next_word] and [send_word]. *)
Inductive reachable : Game -> Prop :=
| reachable_init fuel rnd ws max_rank g :
    Game_init fuel rnd ws max_rank = Some (Returned g) -> reachable g
| reachable_next_word g r w g' :
    reachable g -> next_word r g = (Returned w, g') -> reachable g'
| reachable_send_word g text w g' :
    reachable g -> send_word text g = (Returned w, g') -> reachable g'.


(** ** The rules, in the words of the specification *)

Definition head_char (s : str) : option char :=
  match s with
  | [] => None
  | c :: _ => Some c
  end.

Definition last_char (s : str) : option char := head_char (rev s).

(** Small-form folding of a mora. *)
Definition fold_small_form (mora : str) : str := translate small_to_big mora.

(** The required starting unit: the last mora of the last played word,
    small-form folded. *)
Definition required_unit (chain : list GameWord) : option str :=
  match rev chain with
  | prev :: _ =>
      match last_char (kana prev) with
      | Some c => Some (fold_small_form [c])
      | None => None
      end
  | [] => None
  end.

Inductive rule := Continuity | KnownWord | NoRepeat | MustBeNoun | TerminalUnit.

Definition validation_order : list rule :=
  [Continuity; KnownWord; NoRepeat; MustBeNoun; TerminalUnit].

(** Whether the normalized [text] breaks rule [r] in state [g], where
    [unit] is the required starting unit.  Rules on the resolved word are
    not broken by a text that resolves to no word. *)
Definition violated (g : Game) (unit text : str) (r : rule) : bool :=
  match r with
  | Continuity =>
      match head_char text with
      | Some c => negb (str_eqb [c] unit)
      | None => true
      end
  | KnownWord => negb (existsb (str_eqb text) (dict_keys (known_words g)))
  | NoRepeat =>
      match dict_get (known_words g) text with
      | Some w => existsb (GameWord_eqb w) (seen_words g)
      | None => false
      end
  | MustBeNoun =>
      match dict_get (known_words g) text with
      | Some w => negb (is_noun w)
      | None => false
      end
  | TerminalUnit =>
      match last_char text with
      | Some c => c =? HIRAGANA_LETTER_N
      | None => false
      end
  end.

(** The failure of each rule. *)
Definition failure_of (g : Game) (unit text : str) (r : rule) : exn :=
  match r with
  | Continuity => InvalidWordException (NotLastMora text unit)
  | KnownWord => UnknownWordException text
  | NoRepeat => InvalidWordException (AlreadySeen text)
  | MustBeNoun =>
      InvalidWordException
        (NotANoun text
           (match dict_get (known_words g) text with
            | Some w => kanji w
            | None => []
            end))
  | TerminalUnit => InvalidWordException (EndsWithN text)
  end.

Definition first_violated (g : Game) (unit text : str) : option rule :=
  find (violated g unit text) validation_order.

(** What [send_word text] must do in state [g] if it validates in
    [validation_order] and fails with the first violated rule. *)
Definition validates_in_order (g : Game) (text : str) : Prop :=
  let t := katakana_to_hiragana text in
  exists unit,
    required_unit (seen_words g) = Some unit /\
    match first_violated g unit t with
    | Some r => fst (send_word text g) = Raised (failure_of g unit t r)
    | None =>
        exists w,
          dict_get (known_words g) t = Some w /\
          fst (send_word text g) = Returned w
    end.

(** Continuity of a chain: each word starts with the folded last mora of
    the word before it; [norm] is applied to both sides before they are
    compared. *)
Definition continues (norm : str -> str) (prev curr : GameWord) : bool :=
  match head_char (kana curr), last_char (kana prev) with
  | Some c, Some p => str_eqb (norm [c]) (norm (fold_small_form [p]))
  | _, _ => false
  end.

Fixpoint chain_continuity (norm : str -> str) (chain : list GameWord)
  : bool :=
  match chain with
  | prev :: (curr :: _) as rest =>
      continues norm prev curr && chain_continuity norm rest
  | _ => true
  end.

Definition literally (s : str) : str := s.

(** A word the engine may answer with after [chain], as the
    specification lists the conditions. *)
Definition legal_reply (g : Game) (unit : str) (w : GameWord) : Prop :=
  In w (dict_values (known_words g)) /\
  (exists rest, kana w = unit ++ rest) /\
  ~ In w (seen_words g) /\
  is_noun w = true /\
  last_char (kana w) <> Some HIRAGANA_LETTER_N.

(** A word construction may start the chain with. *)
Definition qualifies (w : GameWord) : bool :=
  is_noun w &&
  match last_char (kana w) with
  | Some c => negb (c =? HIRAGANA_LETTER_N)
  | None => false
  end.

(** ** Invariants of the instance *)

(** Every key of the index is the normalized reading of its word. *)
Definition keys_normalized (d : dict) : Prop :=
  forall k w, In (k, w) d -> k = katakana_to_hiragana (kana w).

(** What every reachable instance satisfies. *)
Definition chain_invariant (g : Game) : Prop :=
  seen_words g <> [] /\
  (forall w, In w (seen_words g) -> kana w <> []) /\
  NoDup (seen_words g) /\
  chain_continuity katakana_to_hiragana (seen_words g) = true /\
  keys_normalized (known_words g) /\
  incl (seen_words g) (dict_values (known_words g)).

(** ** Example games *)

Definition w_asa : GameWord := mkGameWord [] [0x3042; 0x3055] 1 true.
Definition w_saru : GameWord := mkGameWord [] [0x3055; 0x308B] 1 true.
Definition w_rusu : GameWord := mkGameWord [] [0x308B; 0x3059] 1 true.
Definition w_SARU : GameWord := mkGameWord [] [0x30B5; 0x30EB] 1 true.
Definition w_hon : GameWord := mkGameWord [] [0x307B; 0x3093] 1 true.

Definition always (r : nat) : nat -> nat := fun _ => r.

(** The vocabulary of the specification's scenario, after construction
    has drawn the first entry. *)
Definition hiragana_words : list GameWord := [w_asa; w_saru; w_rusu].

Definition g_asa : Game :=
  mkGame hiragana_words (initial_index w_asa [w_saru; w_rusu] None)
         [w_asa] 0.

Definition g_asa_saru : Game :=
  mkGame hiragana_words (initial_index w_asa [w_saru; w_rusu] None)
         [w_asa; w_saru] 1.

(** The same game with the second word spelled in katakana. *)
Definition katakana_words : list GameWord := [w_asa; w_SARU].

Definition g_kata : Game :=
  mkGame katakana_words (initial_index w_asa [w_SARU] None) [w_asa] 0.

Definition g_kata_SARU : Game :=
  mkGame katakana_words (initial_index w_asa [w_SARU] None)
         [w_asa; w_SARU] 1.

(** ** Further definitions *)

(** The step of the dict comprehension. *)
Definition known_words_step (max_rank : Z) (d : dict) (w : GameWord) : dict :=
  if rank w <=? max_rank then dict_set (katakana_to_hiragana (kana w)) w d
  else d.

(** What every reachable instance satisfies besides [chain_invariant]. *)
Definition played_invariant (g : Game) : Prop :=
  NoDup (dict_keys (known_words g)) /\
  (forall k w, In (k, w) (known_words g) -> In w (words g)) /\
  (forall w, In w (seen_words g) ->
     is_noun w = true /\ last_char (kana w) <> Some HIRAGANA_LETTER_N) /\
  0 <= player_score g <= Z.of_nat (length (seen_words g)) - 1.

(** ** The interactive loop of [main] *)

(** [get_data()] is input and output only; [main] is modelled from the
    word list it returns.  [input()] reads the next of the lines given
    and raises [EOFError] when none is left; what is printed is kept as a
    list of events, one for each [print] (the fixed lines at the start
    and at the end are grouped), with the arguments of [format]. *)
Inductive output :=
| Title
| First (kana kanji : str)
| Prompt
| AskAgain
| Reply (old_kana old_kanji kana kanji : str)
| SayUnknown (text kana : str)
| SayInvalid (msg : invalid_word)
| Closing (score : Z) (chain : list str).

(** How the loop, and [main], end: by [break] (then the closing lines are
    printed and [main] returns), or by an exception no handler catches. *)
Inductive ending :=
| Break
| Uncaught (e : exn)
| UncaughtEOFError.

(** [s.strip()]: [isspace] is the whitespace table of [str.isspace]. *)
Fixpoint lstrip (isspace : char -> bool) (s : str) : str :=
  match s with
  | [] => []
  | c :: s' => if isspace c then lstrip isspace s' else s
  end.

Definition strip (isspace : char -> bool) (s : str) : str :=
  rev (lstrip isspace (rev (lstrip isspace s))).

(** [s.replace(' ', '')] *)
Definition remove_spaces (s : str) : str :=
  filter (fun c => negb (c =? 0x20)) s.

Definition quit : str := [0x71; 0x75; 0x69; 0x74].

Definition say (out : list output) (r : list output * ending * Game)
  : list output * ending * Game :=
  let '(out', e, g) := r in (out ++ out', e, g).

(** The [while True] loop: [word] is the engine's last word, [rnd 0] the
    draw of the next call of [next_word]. *)
Fixpoint main_loop (isspace : char -> bool) (rnd : nat -> nat)
    (lines : list str) (word : GameWord) (g : Game)
  : list output * ending * Game :=
  match lines with
  | [] => ([Prompt], UncaughtEOFError, g)
  | line :: lines' =>
      let answer := remove_spaces (strip isspace line) in
      match answer with
      | [] => say [Prompt; AskAgain] (main_loop isspace rnd lines' word g)
      | _ :: _ =>
          if str_eqb answer quit then ([Prompt], Break, g)
          else
            let tried :=
              match send_word answer g with
              | (Returned old_word, g1) =>
                  match next_word (rnd O) g1 with
                  | (Returned word', g2) => (Returned (old_word, word'), g2)
                  | (Raised e, g2) => (Raised e, g2)
                  end
              | (Raised e, g1) => (Raised e, g1)
              end in
            match tried with
            | (Returned (old_word, word'), g2) =>
                say [Prompt;
                     Reply (kana old_word) (kanji old_word)
                           (kana word') (kanji word')]
                    (main_loop isspace (fun n => rnd (S n)) lines' word' g2)
            | (Raised (UnknownWordException text), g2) =>
                say [Prompt; SayUnknown text (kana word)]
                    (main_loop isspace rnd lines' word g2)
            | (Raised (InvalidWordException msg), g2) =>
                ([Prompt; SayInvalid msg], Break, g2)
            | (Raised e, g2) => ([Prompt], Uncaught e, g2)
            end
      end
  end.



(** The answers the loop counts: each reply of the engine, and the
    answer after which the engine gave up. *)
Definition accepted (o : output) : bool :=
  match o with
  | Reply _ _ _ _ => true
  | SayInvalid GiveUp => true
  | _ => false
  end.

Definition replied (o : output) : bool :=
  match o with
  | Reply _ _ _ _ => true
  | _ => false
  end.

(** A whitespace table for the examples: the ASCII space alone. *)
Definition ascii_space (c : char) : bool := c =? 0x20.

(** ** Katakana spellings *)

Definition HIRAGANA_LETTER_VU : char := 0x3094.
Definition HIRAGANA_LETTER_SMALL_KE : char := 0x3096.
Definition HIRAGANA_ITERATION_MARK : char := 0x309D.
Definition HIRAGANA_VOICED_ITERATION_MARK : char := 0x309E.

(** The katakana spelling of a hiragana text.  This is not a function of
    [game.py]: it states what the specification calls the syllabary-B
    spelling of a syllabary-A word.  The two Unicode blocks run in
    parallel, 0x60 apart, for the letters (HIRAGANA LETTER SMALL A to
    HIRAGANA LETTER SMALL KE) and for the two iteration marks. *)
Definition katakana_spelling (h : str) : str :=
  map (fun c =>
         if ((HIRAGANA_LETTER_SMALL_A <=? c)
             && (c <=? HIRAGANA_LETTER_SMALL_KE))
            || ((HIRAGANA_ITERATION_MARK <=? c)
                && (c <=? HIRAGANA_VOICED_ITERATION_MARK))
         then c + 0x60 else c) h.

(** A game whose index holds a reading with HIRAGANA LETTER VU. *)
Definition w_sara : GameWord := mkGameWord [] [0x3055; 0x3089] 1 true.
Definition w_ravu : GameWord := mkGameWord [] [0x3089; 0x3094] 1 true.

Definition g_sara : Game :=
  mkGame [w_sara; w_ravu] (initial_index w_sara [w_ravu] None) [w_sara] 0.

(** ** The draws of construction *)

(** The entry the loop of [__init__] looks at for the draw [r]:
    [key = random.choice(list(self.known_words.keys()))], then
    [self.known_words[key]]. *)
Definition drawn (known : dict) (r : nat) : option GameWord :=
  match choice r (dict_keys known) with
  | Returned key => dict_get known key
  | Raised _ => None
  end.

(** An entry the loop passes over: not a noun, or with a reading that
    ends in hiragana N. *)
Definition passed_over (w : GameWord) : Prop :=
  is_noun w = false \/ exists s, kana w = s ++ [HIRAGANA_LETTER_N].

(** The first [n] draws of [rnd] all select entries that are passed
    over. *)
Definition passes_over_first (known : dict) (rnd : nat -> nat) (n : nat)
  : Prop :=
  forall k, (k < n)%nat ->
            exists w, drawn known (rnd k) = Some w /\ passed_over w.

(** * Properties *)

Lemma str_eqb_eq a b : str_eqb a b = true <-> a = b.
Proof.
  unfold str_eqb. destruct (list_eq_dec Z.eq_dec a b); split; congruence.
Qed.

Lemma str_eqb_neq a b : str_eqb a b = false <-> a <> b.
Proof.
  unfold str_eqb. destruct (list_eq_dec Z.eq_dec a b); split; congruence.
Qed.

Lemma str_eqb_refl a : str_eqb a a = true.
Proof. now apply str_eqb_eq. Qed.

Lemma shifted_range c :
  shifted c = true <->
  KATAKANA_HIRAGANA_DOUBLE_HYPHEN <= c <= KATAKANA_LETTER_N.
Proof.
  unfold shifted, is_katakana, KATAKANA_HIRAGANA_DOUBLE_HYPHEN,
    KATAKANA_LETTER_N, KATAKANA_DIGRAPH_KOTO; simpl.
  rewrite !andb_true_iff, Z.geb_le, !Z.leb_le. lia.
Qed.

Lemma katakana_to_hiragana_char_shifted c :
  shifted c = true -> katakana_to_hiragana_char c = c - 0x60.
Proof.
  unfold shifted, katakana_to_hiragana_char; intros ->.
  unfold HIRAGANA_LETTER_SMALL_A, KATAKANA_LETTER_SMALL_A. lia.
Qed.

Lemma katakana_to_hiragana_char_kept c :
  shifted c = false -> katakana_to_hiragana_char c = c.
Proof. unfold shifted, katakana_to_hiragana_char; now intros ->. Qed.

(** [chr] never raises inside [katakana_to_hiragana]. *)
Lemma katakana_to_hiragana_chr_defined c :
  shifted c = true ->
  chr_defined (HIRAGANA_LETTER_SMALL_A + c - KATAKANA_LETTER_SMALL_A) = true.
Proof.
  intros H; apply shifted_range in H.
  unfold KATAKANA_HIRAGANA_DOUBLE_HYPHEN, KATAKANA_LETTER_N in H.
  unfold chr_defined, HIRAGANA_LETTER_SMALL_A, KATAKANA_LETTER_SMALL_A.
  apply andb_true_iff; split; [apply Z.leb_le | apply Z.ltb_lt]; lia.
Qed.

(** A normalized character is never shifted again. *)
Lemma katakana_to_hiragana_char_not_shifted c :
  shifted (katakana_to_hiragana_char c) = false.
Proof.
  destruct (shifted c) eqn:E.
  - rewrite (katakana_to_hiragana_char_shifted _ E).
    apply shifted_range in E.
    apply not_true_is_false; intros H; apply shifted_range in H.
    unfold KATAKANA_HIRAGANA_DOUBLE_HYPHEN, KATAKANA_LETTER_N in *. lia.
  - now rewrite (katakana_to_hiragana_char_kept _ E).
Qed.

Lemma katakana_to_hiragana_char_idem c :
  katakana_to_hiragana_char (katakana_to_hiragana_char c) =
  katakana_to_hiragana_char c.
Proof.
  apply katakana_to_hiragana_char_kept,
    katakana_to_hiragana_char_not_shifted.
Qed.

Lemma katakana_to_hiragana_length text :
  length (katakana_to_hiragana text) = length text.
Proof. apply length_map. Qed.

Lemma katakana_to_hiragana_app a b :
  katakana_to_hiragana (a ++ b) =
  katakana_to_hiragana a ++ katakana_to_hiragana b.
Proof. apply map_app. Qed.

Lemma katakana_to_hiragana_idem text :
  katakana_to_hiragana (katakana_to_hiragana text) =
  katakana_to_hiragana text.
Proof.
  unfold katakana_to_hiragana. rewrite map_map.
  apply map_ext; intros c; apply katakana_to_hiragana_char_idem.
Qed.


(** ** The normalizer *)

(** C7 (as amended): the normalizer keeps the length of the text and works
    character by character; a character from KATAKANA LETTER SMALL A to
    KATAKANA LETTER N (small tsu included) becomes the hiragana letter at
    the same offset from HIRAGANA LETTER SMALL A, which lies between
    HIRAGANA LETTER SMALL A and HIRAGANA LETTER N; a character below
    U+30A0 or above KATAKANA LETTER N (long-vowel mark, middle dot,
    hiragana, anything else) is unchanged. *)
Theorem katakana_to_hiragana_pointwise (text : str) :
  length (katakana_to_hiragana text) = length text /\
  forall (i : nat) (c : char),
    nth_error text i = Some c ->
    (KATAKANA_LETTER_SMALL_A <= c <= KATAKANA_LETTER_N ->
     nth_error (katakana_to_hiragana text) i =
       Some (HIRAGANA_LETTER_SMALL_A + (c - KATAKANA_LETTER_SMALL_A)) /\
     HIRAGANA_LETTER_SMALL_A
       <= HIRAGANA_LETTER_SMALL_A + (c - KATAKANA_LETTER_SMALL_A)
       <= HIRAGANA_LETTER_N) /\
    (c < KATAKANA_HIRAGANA_DOUBLE_HYPHEN \/ KATAKANA_LETTER_N < c ->
     nth_error (katakana_to_hiragana text) i = Some c).
Proof.
  split; [apply katakana_to_hiragana_length|].
  intros i c Hi.
  assert (Hn : nth_error (katakana_to_hiragana text) i =
               Some (katakana_to_hiragana_char c)).
  { unfold katakana_to_hiragana. now rewrite nth_error_map, Hi. }
  rewrite Hn; split; intros Hc.
  - assert (Hs : shifted c = true).
    { apply shifted_range.
      unfold KATAKANA_HIRAGANA_DOUBLE_HYPHEN, KATAKANA_LETTER_SMALL_A in *.
      lia. }
    rewrite (katakana_to_hiragana_char_shifted _ Hs).
    unfold HIRAGANA_LETTER_SMALL_A, HIRAGANA_LETTER_N,
      KATAKANA_LETTER_SMALL_A, KATAKANA_LETTER_N in *.
    split; [f_equal|]; lia.
  - rewrite katakana_to_hiragana_char_kept; [reflexivity|].
    apply not_true_is_false; intros Hs; apply shifted_range in Hs. lia.
Qed.

Lemma katakana_to_hiragana_pointwise_witness :
  nth_error (katakana_to_hiragana
               [0x30B5; KATAKANA_HIRAGANA_PROLONGED_SOUND_MARK]) 0 =
    Some 0x3055 /\
  nth_error (katakana_to_hiragana
               [0x30B5; KATAKANA_HIRAGANA_PROLONGED_SOUND_MARK]) 1 =
    Some KATAKANA_HIRAGANA_PROLONGED_SOUND_MARK.
Proof.
  destruct (katakana_to_hiragana_pointwise
              [0x30B5; KATAKANA_HIRAGANA_PROLONGED_SOUND_MARK]) as [_ H].
  split.
  - destruct (H 0%nat 0x30B5 eq_refl) as [H1 _].
    destruct H1 as [H1 _]; [vm_compute; split; discriminate | exact H1].
  - destruct (H 1%nat KATAKANA_HIRAGANA_PROLONGED_SOUND_MARK eq_refl)
      as [_ H2].
    apply H2. right. reflexivity.
Defined.

(** C7 (as stated) fails: katakana small tsu is inside the shifted range
    and becomes hiragana small tsu, and the double hyphen U+30A0, which is
    below KATAKANA LETTER SMALL A, is shifted as well. *)
Lemma katakana_to_hiragana_changes_small_tu :
  katakana_to_hiragana
    [KATAKANA_LETTER_SMALL_TU; KATAKANA_HIRAGANA_DOUBLE_HYPHEN] =
    [HIRAGANA_LETTER_SMALL_TU; 0x3040] /\
  katakana_to_hiragana [KATAKANA_LETTER_SMALL_TU]
    <> [KATAKANA_LETTER_SMALL_TU] /\
  katakana_to_hiragana [KATAKANA_HIRAGANA_DOUBLE_HYPHEN]
    <> [KATAKANA_HIRAGANA_DOUBLE_HYPHEN] /\
  ~ (KATAKANA_LETTER_SMALL_A <= KATAKANA_HIRAGANA_DOUBLE_HYPHEN
       <= KATAKANA_LETTER_N).
Proof.
  repeat split; try discriminate.
  vm_compute. intros [H _]. now apply H.
Qed.

(** C8: the normalizer is idempotent. *)
Theorem normalization_idempotent (x : str) :
  katakana_to_hiragana (katakana_to_hiragana x) = katakana_to_hiragana x.
Proof. apply katakana_to_hiragana_idem. Qed.

(** ** Python primitives *)

Lemma GameWord_eqb_eq a b : GameWord_eqb a b = true <-> a = b.
Proof.
  unfold GameWord_eqb. rewrite !andb_true_iff, !str_eqb_eq, Z.eqb_eq.
  rewrite Bool.eqb_true_iff.
  destruct a, b; simpl; split.
  - intros [[[-> ->] ->] ->]; reflexivity.
  - intros H; injection H as -> -> -> ->; auto.
Qed.

Lemma word_in_In w l : word_in w l = true <-> In w l.
Proof.
  unfold word_in. rewrite existsb_exists. split.
  - intros [x [Hx E]]. apply GameWord_eqb_eq in E. now subst.
  - intros H. exists w. split; [assumption | now apply GameWord_eqb_eq].
Qed.

Lemma word_in_not_In w l : word_in w l = false <-> ~ In w l.
Proof.
  rewrite <- word_in_In. destruct (word_in w l); split; congruence.
Qed.

Lemma str_last_app s c : str_last (s ++ [c]) = Returned [c].
Proof.
  induction s as [|a s IH]; [reflexivity|].
  simpl. destruct (s ++ [c]) eqn:E; [now destruct s | exact IH].
Qed.

Lemma list_last_app {A} (l : list A) a : list_last (l ++ [a]) = Returned a.
Proof.
  induction l as [|b l IH]; [reflexivity|].
  simpl. destruct (l ++ [a]) eqn:E; [now destruct l | exact IH].
Qed.

Lemma last_char_app s c : last_char (s ++ [c]) = Some c.
Proof. unfold last_char. now rewrite rev_app_distr. Qed.

Lemma list_snoc_cases {A} (l : list A) :
  l = [] \/ exists l' a, l = l' ++ [a].
Proof.
  induction l as [|a l' _] using rev_ind; [now left | right; eauto].
Qed.

Lemma str_last_Returned s m :
  str_last s = Returned m <-> exists s' c, s = s' ++ [c] /\ m = [c].
Proof.
  split.
  - destruct (list_snoc_cases s) as [-> | (s' & c & ->)]; [discriminate|].
    rewrite str_last_app. intros [= <-]. now exists s', c.
  - intros (s' & c & -> & ->). apply str_last_app.
Qed.

Lemma str_last_Raised s e : str_last s = Raised e -> s = [] /\ e = IndexError.
Proof.
  destruct (list_snoc_cases s) as [-> | (s' & c & ->)].
  - now intros [= <-].
  - now rewrite str_last_app.
Qed.

Lemma list_last_Returned {A} (l : list A) a :
  list_last l = Returned a <-> exists l', l = l' ++ [a].
Proof.
  split.
  - destruct (list_snoc_cases l) as [-> | (l' & b & ->)]; [discriminate|].
    rewrite list_last_app. intros [= <-]. now exists l'.
  - intros (l' & ->). apply list_last_app.
Qed.

Lemma list_last_Raised {A} (l : list A) e :
  list_last l = Raised e -> l = [] /\ e = IndexError.
Proof.
  destruct (list_snoc_cases l) as [-> | (l' & c & ->)].
  - now intros [= <-].
  - now rewrite list_last_app.
Qed.

Lemma startswith_prefix s p :
  startswith s p = true <-> exists rest, s = p ++ rest.
Proof.
  revert s; induction p as [|a p IH]; intros s.
  - split; [now exists s | now destruct s].
  - destruct s as [|c s]; simpl.
    + split; [discriminate | now intros [rest H]].
    + rewrite andb_true_iff, Z.eqb_eq, IH. split.
      * intros [-> [rest ->]]. now exists rest.
      * intros [rest [= -> ->]]. split; [reflexivity | now exists rest].
Qed.

Lemma endswith_last_char s c :
  endswith s [c] = true <-> last_char s = Some c.
Proof.
  unfold endswith, last_char; simpl.
  destruct (rev s) as [|a r]; simpl; [split; discriminate|].
  replace (startswith r []) with true by now destruct r.
  rewrite andb_true_r, Z.eqb_eq. split; congruence.
Qed.

Lemma endswith_n_false s :
  endswith s hiragana_n = false <-> last_char s <> Some HIRAGANA_LETTER_N.
Proof.
  unfold hiragana_n. rewrite <- endswith_last_char.
  destruct (endswith s [HIRAGANA_LETTER_N]); split; congruence.
Qed.

(** Folding leaves a single mora a single mora. *)
Lemma fold_small_form_single p : exists m, fold_small_form [p] = [m].
Proof.
  unfold fold_small_form, translate, small_to_big; simpl.
  repeat match goal with |- context [if ?b then _ else _] => destruct b end;
    simpl; eauto.
Qed.

(** A folded mora that the normalizer leaves alone stays so. *)
Lemma fold_small_form_normal p :
  katakana_to_hiragana [p] = [p] ->
  katakana_to_hiragana (fold_small_form [p]) = fold_small_form [p].
Proof.
  unfold fold_small_form, translate, small_to_big; simpl.
  repeat match goal with |- context [if ?b then _ else _] => destruct b end;
    simpl; auto.
Qed.

Lemma choice_nth_error {A} r (l : list A) a :
  choice r l = Returned a <-> nth_error l (r mod length l)%nat = Some a.
Proof.
  destruct l as [|b l].
  - unfold choice. split; [discriminate|].
    intros H. destruct (r mod length (@nil A))%nat; discriminate.
  - unfold choice. set (n := (r mod length (b :: l))%nat).
    assert (Hlt : (n < length (b :: l))%nat)
      by (apply Nat.mod_upper_bound; discriminate).
    rewrite (nth_error_nth' _ b Hlt). split; congruence.
Qed.

Lemma choice_In {A} r (l : list A) a : choice r l = Returned a -> In a l.
Proof. rewrite choice_nth_error. apply nth_error_In. Qed.

Lemma choice_Raised {A} r (l : list A) e :
  choice r l = Raised e -> l = [] /\ e = IndexError.
Proof. destruct l; [now intros [= <-] | discriminate]. Qed.

(** ** Dictionaries *)

Lemma dict_get_In d k v : dict_get d k = Some v -> In (k, v) d.
Proof.
  induction d as [|[k' v'] d IH]; simpl; [discriminate|].
  destruct (str_eqb k' k) eqn:E.
  - apply str_eqb_eq in E. intros [= ->]. left. now subst.
  - intros H. right. auto.
Qed.

Lemma dict_get_value d k v : dict_get d k = Some v -> In v (dict_values d).
Proof.
  intros H. apply dict_get_In in H.
  unfold dict_values. change v with (snd (k, v)). now apply in_map.
Qed.

Lemma dict_contains_keys k d :
  dict_contains k d = existsb (str_eqb k) (dict_keys d).
Proof.
  unfold dict_contains.
  induction d as [|[k' v'] d IH]; simpl; [reflexivity|].
  destruct (str_eqb k' k) eqn:E.
  - apply str_eqb_eq in E. subst. now rewrite str_eqb_refl.
  - apply str_eqb_neq in E.
    assert (E' : str_eqb k k' = false) by (apply str_eqb_neq; congruence).
    now rewrite E'.
Qed.

Lemma dict_get_key d k : In k (dict_keys d) -> exists v, dict_get d k = Some v.
Proof.
  induction d as [|[k' v'] d IH]; simpl; [tauto|].
  intros [-> | H].
  - rewrite str_eqb_refl. eauto.
  - destruct (str_eqb k' k); eauto.
Qed.

Lemma dict_set_In k v d kv :
  In kv (dict_set k v d) -> In kv d \/ kv = (k, v).
Proof.
  induction d as [|[k' v'] d IH]; simpl.
  - intros [<- | []]. now right.
  - destruct (str_eqb k' k) eqn:E; simpl.
    + apply str_eqb_eq in E; subst.
      intros [<- | H]; [now right | left; now right].
    + intros [<- | H]; [left; now left|].
      destruct (IH H); [left; now right | now right].
Qed.

Lemma build_known_words_keys_from ws max_rank d :
  keys_normalized d ->
  keys_normalized
    (fold_left
       (fun d w =>
          if rank w <=? max_rank
          then dict_set (katakana_to_hiragana (kana w)) w d
          else d)
       ws d).
Proof.
  revert d; induction ws as [|w ws IH]; intros d Hd; simpl; [assumption|].
  apply IH. destruct (rank w <=? max_rank); [|assumption].
  intros k w' H. apply dict_set_In in H. destruct H as [H | [= -> ->]]; auto.
Qed.

Lemma build_known_words_keys ws max_rank :
  keys_normalized (build_known_words ws max_rank).
Proof. apply build_known_words_keys_from. intros k w []. Qed.

(** ** The methods, step by step *)

Ltac run := unfold bind, ret, raise, lift, gets; simpl.

Lemma last_mora_Returned g l w s p :
  seen_words g = l ++ [w] -> kana w = s ++ [p] ->
  last_mora g = (Returned (fold_small_form [p]), g).
Proof.
  intros Hl Hk. unfold last_mora. run.
  now rewrite Hl, list_last_app, Hk, str_last_app.
Qed.

Lemma last_mora_inv g r g' :
  last_mora g = (r, g') ->
  g' = g /\
  match r with
  | Returned m =>
      exists l w s p,
        seen_words g = l ++ [w] /\ kana w = s ++ [p] /\
        m = fold_small_form [p]
  | Raised e =>
      e = IndexError /\
      (seen_words g = [] \/ exists l w, seen_words g = l ++ [w] /\ kana w = [])
  end.
Proof.
  unfold last_mora. run.
  destruct (list_last (seen_words g)) as [w|e] eqn:El.
  - apply list_last_Returned in El. destruct El as [l El].
    destruct (str_last (kana w)) as [m|e] eqn:Ek.
    + apply str_last_Returned in Ek. destruct Ek as (s & p & Ek & ->).
      intros [= <- <-]. split; [reflexivity|]. now exists l, w, s, p.
    + apply str_last_Raised in Ek. destruct Ek as [Ek ->].
      intros [= <- <-]. split; [reflexivity|]. split; [reflexivity|].
      right. now exists l, w.
  - apply list_last_Raised in El. destruct El as [El ->].
    intros [= <- <-]. split; [reflexivity|]. split; [reflexivity|]. now left.
Qed.

Lemma required_unit_last_mora g u :
  required_unit (seen_words g) = Some u <-> last_mora g = (Returned u, g).
Proof.
  split.
  - unfold required_unit.
    destruct (list_snoc_cases (seen_words g)) as [E | (l & w & E)];
      rewrite E; [discriminate|].
    rewrite rev_app_distr; simpl.
    destruct (list_snoc_cases (kana w)) as [Ek | (s & p & Ek)]; rewrite Ek.
    + discriminate.
    + rewrite last_char_app. intros [= <-].
      now apply (last_mora_Returned g l w s p).
  - intros H. apply last_mora_inv in H.
    destruct H as (_ & l & w & s & p & E & Ek & ->).
    unfold required_unit. rewrite E, rev_app_distr; simpl.
    now rewrite Ek, last_char_app.
Qed.

Lemma _validate_no_mora g text e :
  last_mora g = (Raised e, g) -> _validate text g = (Raised e, g).
Proof. intros H. unfold _validate, bind. now rewrite H. Qed.

Lemma _validate_unfold g text u :
  last_mora g = (Returned u, g) ->
  _validate text g =
  (match text with
   | [] => Raised IndexError
   | c :: _ =>
       if negb (str_eqb [c] u) then
         Raised (InvalidWordException (NotLastMora text u))
       else
         match dict_get (known_words g) text with
         | None => Raised (UnknownWordException text)
         | Some word =>
             if word_in word (seen_words g) then
               Raised (InvalidWordException (AlreadySeen text))
             else if negb (is_noun word) then
               Raised (InvalidWordException (NotANoun text (kanji word)))
             else if endswith text hiragana_n then
               Raised (InvalidWordException (EndsWithN text))
             else Returned tt
         end
   end, g).
Proof.
  intros H. unfold _validate, bind at 1. rewrite H.
  destruct text as [|c text']; [reflexivity|].
  run. destruct (str_eqb [c] u); simpl; [|reflexivity].
  unfold dict_contains, dict_getitem.
  destruct (dict_get (known_words g) (c :: text')) as [word|]; simpl;
    [|reflexivity].
  destruct (word_in word (seen_words g)); [reflexivity|].
  destruct (is_noun word); simpl; [|reflexivity].
  now destruct (endswith (c :: text') hiragana_n).
Qed.

Lemma last_mora_cases g :
  (exists u, last_mora g = (Returned u, g)) \/
  last_mora g = (Raised IndexError, g).
Proof.
  destruct (last_mora g) as [r g'] eqn:E.
  destruct (last_mora_inv _ _ _ E) as [-> H].
  destruct r as [u|e]; [left; eauto | right]. now destruct H as [-> _].
Qed.

(** Validation only reads the instance. *)
Lemma _validate_state text g : snd (_validate text g) = g.
Proof.
  destruct (last_mora_cases g) as [[u H] | H].
  - now rewrite (_validate_unfold _ _ _ H).
  - now rewrite (_validate_no_mora _ _ _ H).
Qed.

(** A validated text resolves to a word. *)
Lemma _validate_Returned text g g' :
  _validate text g = (Returned tt, g') ->
  g' = g /\
  exists u c rest word,
    last_mora g = (Returned u, g) /\
    text = c :: rest /\ u = [c] /\
    dict_get (known_words g) text = Some word /\
    ~ In word (seen_words g) /\
    is_noun word = true /\
    last_char text <> Some HIRAGANA_LETTER_N.
Proof.
  intros H. pose proof (_validate_state text g) as Hs.
  rewrite H in Hs; simpl in Hs. split; [assumption|]. subst g'.
  destruct (last_mora_cases g) as [[u Hm] | Hm].
  2: { rewrite (_validate_no_mora _ _ _ Hm) in H. discriminate. }
  rewrite (_validate_unfold _ _ _ Hm) in H.
  destruct text as [|c rest]; [discriminate|].
  destruct (str_eqb [c] u) eqn:Eu; simpl in H; [|discriminate].
  apply str_eqb_eq in Eu.
  destruct (dict_get (known_words g) (c :: rest)) as [word|] eqn:Ed;
    [|discriminate].
  destruct (word_in word (seen_words g)) eqn:Es; [discriminate|].
  destruct (is_noun word) eqn:En; simpl in H; [|discriminate].
  destruct (endswith (c :: rest) hiragana_n) eqn:Ee; [discriminate|].
  exists u, c, rest, word. repeat split; auto.
  - now apply word_in_not_In.
  - now apply endswith_n_false.
Qed.

Lemma send_word_unfold text g :
  send_word text g =
  match _validate (katakana_to_hiragana text) g with
  | (Returned _, _) =>
      match dict_get (known_words g) (katakana_to_hiragana text) with
      | Some word =>
          (Returned word,
           mkGame (words g) (known_words g) (seen_words g ++ [word])
                  (player_score g + 1))
      | None => (Raised (KeyError (katakana_to_hiragana text)), g)
      end
  | (Raised e, _) => (Raised e, g)
  end.
Proof.
  unfold send_word, bind at 1.
  pose proof (_validate_state (katakana_to_hiragana text) g) as Hs.
  destruct (_validate (katakana_to_hiragana text) g) as [[u|e] g'];
    simpl in Hs; subst g'; [|reflexivity].
  run. unfold dict_getitem.
  now destruct (dict_get (known_words g) (katakana_to_hiragana text)).
Qed.

(** A successful [send_word], taken apart. *)
Lemma send_word_Returned text g w g' :
  send_word text g = (Returned w, g') ->
  g' = mkGame (words g) (known_words g) (seen_words g ++ [w])
              (player_score g + 1) /\
  exists u c rest,
    last_mora g = (Returned u, g) /\
    katakana_to_hiragana text = c :: rest /\ u = [c] /\
    dict_get (known_words g) (katakana_to_hiragana text) = Some w /\
    ~ In w (seen_words g) /\
    is_noun w = true /\
    last_char (katakana_to_hiragana text) <> Some HIRAGANA_LETTER_N.
Proof.
  rewrite send_word_unfold.
  destruct (_validate (katakana_to_hiragana text) g) as [[[]|e] g1] eqn:Ev;
    [|discriminate].
  apply _validate_Returned in Ev.
  destruct Ev as (-> & u & c & rest & word & Hm & Ht & Hu & Hd & Hs & Hn & He).
  rewrite Hd. intros [= <- <-]. split; [reflexivity|].
  exists u, c, rest. repeat split; auto.
Qed.

(** [next_word], taken apart. *)
Lemma next_word_single r g w :
  seen_words g = [w] -> next_word r g = (Returned w, g).
Proof. intros H. unfold next_word. run. now rewrite H. Qed.

Lemma next_word_unfold r g u :
  length (seen_words g) <> 1%nat ->
  last_mora g = (Returned u, g) ->
  next_word r g =
  match firstn 10 (filter (candidate u (seen_words g))
                          (dict_values (known_words g))) with
  | [] => (Raised (InvalidWordException GiveUp), g)
  | c :: cs =>
      match choice r (c :: cs) with
      | Returned new_word =>
          (Returned new_word,
           mkGame (words g) (known_words g) (seen_words g ++ [new_word])
                  (player_score g))
      | Raised e => (Raised e, g)
      end
  end.
Proof.
  intros Hlen Hm. unfold next_word, bind at 1, gets at 1.
  apply Nat.eqb_neq in Hlen. rewrite Hlen.
  unfold bind at 1. rewrite Hm.
  unfold bind, ret, raise, lift, gets, _update_seen.
  destruct (firstn 10 _) as [|c cs]; [reflexivity|].
  now destruct (choice r (c :: cs)).
Qed.

(** ** Construction *)

Lemma initial_ok_qualifies first :
  initial_ok first = Returned true <-> qualifies first = true.
Proof.
  unfold initial_ok, qualifies. destruct (is_noun first); simpl.
  2: split; discriminate.
  destruct (list_snoc_cases (kana first)) as [-> | (s & c & ->)].
  - simpl. split; discriminate.
  - rewrite str_last_app, last_char_app.
    unfold hiragana_n.
    destruct (Z.eqb_spec c HIRAGANA_LETTER_N) as [-> | Hc].
    + rewrite str_eqb_refl. simpl. split; discriminate.
    + assert (E : str_eqb [c] [HIRAGANA_LETTER_N] = false)
        by (apply str_eqb_neq; congruence).
      rewrite E. simpl. split; reflexivity.
Qed.

Lemma qualifies_kana w : qualifies w = true -> kana w <> [].
Proof.
  unfold qualifies. intros H Hk. rewrite Hk in H. simpl in H.
  now rewrite andb_false_r in H.
Qed.

Lemma dict_getitem_Returned d k v :
  dict_getitem d k = Returned v <-> dict_get d k = Some v.
Proof.
  unfold dict_getitem. destruct (dict_get d k); split; congruence.
Qed.

Lemma pick_initial_Returned fuel rnd known first :
  pick_initial fuel rnd known = Some (Returned first) ->
  In first (dict_values known) /\ qualifies first = true.
Proof.
  revert rnd; induction fuel as [|fuel IH]; intros rnd; simpl;
    [discriminate|].
  destruct (choice (rnd 0%nat) (dict_keys known)) as [key|e]; [|discriminate].
  destruct (dict_getitem known key) as [w|e] eqn:Eg; [|discriminate].
  destruct (initial_ok w) as [[|]|e] eqn:Eo; [| apply IH | discriminate].
  intros [= <-]. split.
  - apply dict_getitem_Returned in Eg. now apply dict_get_value in Eg.
  - now apply initial_ok_qualifies.
Qed.


Lemma Game_init_Returned fuel rnd ws max_rank g :
  Game_init fuel rnd ws max_rank = Some (Returned g) ->
  exists w0 ws' first,
    ws = w0 :: ws' /\
    pick_initial fuel rnd (initial_index w0 ws' max_rank)
      = Some (Returned first) /\
    g = mkGame ws (initial_index w0 ws' max_rank) [first] 0.
Proof.
  unfold Game_init. destruct ws as [|w0 ws']; [discriminate|].
  destruct (pick_initial fuel rnd (initial_index w0 ws' max_rank))
    as [[first|e]|] eqn:Ep; try discriminate.
  intros [= <-]. now exists w0, ws', first.
Qed.

(** ** The invariant *)

Lemma NoDup_snoc {A} (l : list A) a : NoDup l -> ~ In a l -> NoDup (l ++ [a]).
Proof.
  induction l as [|b l IH]; simpl; intros Hn Hi.
  - constructor; [tauto | constructor].
  - inversion Hn as [|? ? Hb Hl]; subst. constructor.
    + rewrite in_app_iff; simpl. intuition congruence.
    + apply IH; tauto.
Qed.

Lemma chain_continuity_snoc norm l prev curr :
  chain_continuity norm (l ++ [prev]) = true ->
  continues norm prev curr = true ->
  chain_continuity norm ((l ++ [prev]) ++ [curr]) = true.
Proof.
  induction l as [|a l IH]; simpl; intros Hc Hn.
  - now rewrite Hn.
  - destruct (l ++ [prev]) as [|b l'] eqn:E; [now destruct l|].
    simpl in *. apply andb_true_iff in Hc. destruct Hc as [Hab Hc].
    rewrite Hab. simpl. now apply IH.
Qed.

Lemma In_firstn {A} n (l : list A) a : In a (firstn n l) -> In a l.
Proof.
  intros H. rewrite <- (firstn_skipn n l). apply in_or_app. now left.
Qed.

Lemma candidate_true u seen w :
  candidate u seen w = true <->
  (exists rest, kana w = u ++ rest) /\ ~ In w seen /\ is_noun w = true /\
  last_char (kana w) <> Some HIRAGANA_LETTER_N.
Proof.
  unfold candidate.
  rewrite !andb_true_iff, !negb_true_iff, startswith_prefix,
    word_in_not_In, endswith_n_false.
  tauto.
Qed.

Lemma katakana_to_hiragana_cons_inv s c rest :
  katakana_to_hiragana s = c :: rest ->
  exists c0 rest0, s = c0 :: rest0 /\ katakana_to_hiragana [c0] = [c].
Proof.
  destruct s as [|c0 rest0]; [discriminate|].
  simpl. intros [= <- <-]. now exists c0, rest0.
Qed.

Lemma chain_invariant_init fuel rnd ws max_rank g :
  Game_init fuel rnd ws max_rank = Some (Returned g) -> chain_invariant g.
Proof.
  intros H. apply Game_init_Returned in H.
  destruct H as (w0 & ws' & first & -> & Hp & ->).
  apply pick_initial_Returned in Hp. destruct Hp as [Hin Hq].
  unfold chain_invariant; simpl. repeat split.
  - discriminate.
  - intros w [<- | []]. now apply qualifies_kana.
  - constructor; [tauto | constructor].
  - apply build_known_words_keys.
  - intros w [<- | []]. assumption.
Qed.

Lemma chain_invariant_append g l prev s p w :
  chain_invariant g ->
  seen_words g = l ++ [prev] -> kana prev = s ++ [p] ->
  In w (dict_values (known_words g)) ->
  ~ In w (seen_words g) ->
  (exists c rest, kana w = c :: rest /\
     katakana_to_hiragana [c] = katakana_to_hiragana (fold_small_form [p])) ->
  forall score,
    chain_invariant
      (mkGame (words g) (known_words g) (seen_words g ++ [w]) score).
Proof.
  intros (Hne & Hk & Hnd & Hc & Hkeys & Hincl) Hl Hp Hin Hnew
    (c & rest & Hw & Hcp) score.
  unfold chain_invariant; simpl. repeat split.
  - now destruct (seen_words g).
  - intros x Hx. apply in_app_iff in Hx. destruct Hx as [Hx | [<- | []]].
    + now apply Hk.
    + rewrite Hw. discriminate.
  - now apply NoDup_snoc.
  - rewrite Hl in *. apply chain_continuity_snoc; [assumption|].
    unfold continues. rewrite Hw, Hp, last_char_app; simpl head_char.
    apply str_eqb_eq. exact Hcp.
  - assumption.
  - intros x Hx. apply in_app_iff in Hx. destruct Hx as [Hx | [<- | []]].
    + now apply Hincl.
    + assumption.
Qed.

Lemma chain_invariant_last_mora g :
  chain_invariant g ->
  exists l prev s p,
    seen_words g = l ++ [prev] /\ kana prev = s ++ [p] /\
    last_mora g = (Returned (fold_small_form [p]), g).
Proof.
  intros (Hne & Hk & _).
  destruct (list_snoc_cases (seen_words g)) as [E | (l & prev & E)];
    [contradiction|].
  destruct (list_snoc_cases (kana prev)) as [Ek | (s & p & Ek)].
  - exfalso. apply (Hk prev); [|assumption].
    rewrite E. apply in_or_app. right. now left.
  - exists l, prev, s, p. repeat split; try assumption.
    now apply (last_mora_Returned g l prev s p).
Qed.

Lemma chain_invariant_required_unit g :
  chain_invariant g -> exists u, required_unit (seen_words g) = Some u.
Proof.
  intros H. destruct (chain_invariant_last_mora g H)
    as (l & prev & s & p & _ & _ & Hm).
  exists (fold_small_form [p]). now apply required_unit_last_mora.
Qed.

(** A successful [next_word], taken apart. *)
Lemma next_word_Returned r g w g' :
  chain_invariant g ->
  next_word r g = (Returned w, g') ->
  (seen_words g = [w] /\ g' = g) \/
  (length (seen_words g) <> 1%nat /\
   exists l prev s p,
     seen_words g = l ++ [prev] /\ kana prev = s ++ [p] /\
     g' = mkGame (words g) (known_words g) (seen_words g ++ [w])
                 (player_score g) /\
     let candidates :=
       firstn 10 (filter (candidate (fold_small_form [p]) (seen_words g))
                         (dict_values (known_words g))) in
     nth_error candidates (r mod length candidates)%nat = Some w).
Proof.
  intros Hinv H.
  destruct (Nat.eq_dec (length (seen_words g)) 1) as [Hlen | Hlen].
  - left. destruct (seen_words g) as [|w' [|? ?]] eqn:E; try discriminate.
    rewrite (next_word_single r g w' E) in H. injection H as <- <-. auto.
  - right. split; [assumption|].
    destruct (chain_invariant_last_mora g Hinv)
      as (l & prev & s & p & Hl & Hp & Hm).
    exists l, prev, s, p. repeat split; try assumption;
      rewrite (next_word_unfold r g _ Hlen Hm) in H;
      destruct (firstn 10 _) as [|c cs] eqn:Ec; try discriminate;
      destruct (choice r (c :: cs)) as [nw|e] eqn:Ech; try discriminate;
      injection H as <- <-; [reflexivity|].
    now apply choice_nth_error.
Qed.

Lemma chain_invariant_next_word r g w g' :
  chain_invariant g -> next_word r g = (Returned w, g') -> chain_invariant g'.
Proof.
  intros Hinv H.
  destruct (next_word_Returned r g w g' Hinv H)
    as [[_ ->] | (_ & l & prev & s & p & Hl & Hp & -> & Hn)];
    [assumption|].
  cbv zeta in Hn. apply nth_error_In, In_firstn, filter_In in Hn.
  destruct Hn as [Hin Hc]. apply candidate_true in Hc.
  destruct Hc as ([rest Hk] & Hnew & _ & _).
  apply (chain_invariant_append g l prev s p w); try assumption.
  destruct (fold_small_form_single p) as [m Em].
  rewrite Em in Hk |- *. exists m, rest. split; [assumption | reflexivity].
Qed.

Lemma chain_invariant_send_word text g w g' :
  chain_invariant g -> send_word text g = (Returned w, g') ->
  chain_invariant g'.
Proof.
  intros Hinv H. apply send_word_Returned in H.
  destruct H as (-> & u & c & rest & Hm & Ht & -> & Hd & Hnew & _ & _).
  destruct (chain_invariant_last_mora g Hinv)
    as (l & prev & s & p & Hl & Hp & Hm').
  assert (Hu : [c] = fold_small_form [p]) by congruence.
  apply (chain_invariant_append g l prev s p w); try assumption.
  - now apply dict_get_value in Hd.
  - destruct Hinv as (_ & _ & _ & _ & Hkeys & _).
    apply dict_get_In, Hkeys in Hd. rewrite Ht in Hd. symmetry in Hd.
    destruct (katakana_to_hiragana_cons_inv _ _ _ Hd)
      as (c0 & rest0 & Hk & Hc0).
    exists c0, rest0. split; [assumption|].
    rewrite <- Hu, <- Hc0. now rewrite katakana_to_hiragana_idem.
Qed.

Lemma reachable_chain_invariant g : reachable g -> chain_invariant g.
Proof.
  induction 1 as [fuel rnd ws max_rank g H
                 | g r w g' _ IH H
                 | g text w g' _ IH H].
  - now apply (chain_invariant_init fuel rnd ws max_rank).
  - now apply (chain_invariant_next_word r g w g').
  - now apply (chain_invariant_send_word text g w g').
Qed.

(** ** The example games are reachable *)

Example Game_init_g_asa :
  Game_init 1 (always 0) hiragana_words None = Some (Returned g_asa).
Proof. reflexivity. Qed.

Example send_word_g_asa_saru :
  send_word [0x3055; 0x308B] g_asa = (Returned w_saru, g_asa_saru).
Proof. reflexivity. Qed.

Example send_word_saru_twice :
  send_word [0x3055; 0x308B] g_asa_saru =
    (Raised (InvalidWordException
               (NotLastMora [0x3055; 0x308B] [0x308B])),
     g_asa_saru).
Proof. reflexivity. Qed.

Example next_word_g_asa_saru :
  fst (next_word 7 g_asa_saru) = Returned w_rusu.
Proof. reflexivity. Qed.

Example send_word_g_kata_SARU :
  send_word [0x3055; 0x308B] g_kata = (Returned w_SARU, g_kata_SARU).
Proof. reflexivity. Qed.

Lemma reachable_g_asa : reachable g_asa.
Proof. exact (reachable_init _ _ _ _ _ Game_init_g_asa). Qed.

Lemma reachable_g_asa_saru : reachable g_asa_saru.
Proof.
  exact (reachable_send_word _ _ _ _ reachable_g_asa send_word_g_asa_saru).
Qed.

Lemma reachable_g_kata_SARU : reachable g_kata_SARU.
Proof.
  apply (reachable_send_word g_kata [0x3055; 0x308B] w_SARU).
  - now apply (reachable_init 1%nat (always 0) katakana_words None).
  - reflexivity.
Qed.

(** ** The player's move *)

Lemma endswith_n_last_char s :
  endswith s hiragana_n =
  match last_char s with
  | Some c => c =? HIRAGANA_LETTER_N
  | None => false
  end.
Proof.
  destruct (last_char s) as [c|] eqn:E.
  - destruct (Z.eqb_spec c HIRAGANA_LETTER_N) as [-> | Hc].
    + now apply endswith_last_char.
    + apply endswith_n_false. congruence.
  - apply endswith_n_false. congruence.
Qed.

(** C1 (as amended): for every reachable state and every non-empty text,
    [send_word] fails with the failure of the first rule, in the order
    continuity, known word, no repeat, noun, terminal unit, that the
    normalized text violates ([UnknownWordException] for the known-word
    rule, [InvalidWordException] with the rule's message for the others),
    and returns the resolved word when no rule is violated. *)
Theorem send_word_validates_in_order (g : Game) (text : str) :
  reachable g -> text <> [] -> validates_in_order g text.
Proof.
  intros Hr Ht. apply reachable_chain_invariant in Hr.
  destruct (chain_invariant_last_mora g Hr)
    as (l & prev & s & p & _ & _ & Hm).
  set (u := fold_small_form [p]) in *.
  unfold validates_in_order. cbv zeta. exists u.
  split; [now apply required_unit_last_mora|].
  rewrite send_word_unfold, (_validate_unfold _ _ _ Hm).
  destruct (katakana_to_hiragana text) as [|c rest] eqn:Et.
  { destruct text; [contradiction | discriminate]. }
  unfold first_violated, validation_order, find.
  unfold violated at 1. simpl head_char.
  unfold char in *.
  destruct (str_eqb [c] u); simpl negb; cbv iota; [|reflexivity].
  unfold violated at 1. rewrite <- dict_contains_keys. unfold dict_contains.
  destruct (dict_get (known_words g) (c :: rest)) as [w|] eqn:Ed;
    simpl negb; cbv iota; [|reflexivity].
  unfold violated at 1. rewrite Ed. fold (word_in w (seen_words g)).
  destruct (word_in w (seen_words g)); [reflexivity|].
  unfold violated at 1. rewrite Ed.
  destruct (is_noun w); simpl negb; cbv iota; [|simpl; now rewrite Ed].
  unfold violated at 1. rewrite <- endswith_n_last_char.
  destruct (endswith (c :: rest) hiragana_n); [reflexivity|].
  exists w. split; reflexivity.
Qed.

Lemma send_word_validates_in_order_witness :
  validates_in_order g_asa_saru [0x30B5; 0x30EB] /\
  validates_in_order g_asa_saru [0x308B; 0x3059].
Proof.
  split; apply send_word_validates_in_order;
    solve [exact reachable_g_asa_saru | discriminate].
Defined.

(** C1 (as stated) fails for the empty text: the first-character access of
    the continuity check raises [IndexError], which is the failure of no
    rule. *)
Lemma send_word_empty_not_in_order :
  ~ (forall g text, reachable g -> validates_in_order g text).
Proof.
  intros H. destruct (H g_asa [] reachable_g_asa) as (u & _ & Hv).
  vm_compute in Hv. discriminate.
Qed.

(** C10: in every state [send_word] raises on the empty text, at the
    first-character access or before it, and leaves the instance as it
    was; it never returns a word. *)
Theorem send_word_empty_raises (g : Game) :
  send_word [] g = (Raised IndexError, g) /\
  forall w g', send_word [] g <> (Returned w, g').
Proof.
  assert (H : send_word [] g = (Raised IndexError, g)).
  { rewrite send_word_unfold. simpl katakana_to_hiragana.
    destruct (last_mora_cases g) as [[u Hm] | Hm].
    - now rewrite (_validate_unfold _ _ _ Hm).
    - now rewrite (_validate_no_mora _ _ _ Hm). }
  split; [assumption|]. intros w g'. rewrite H. discriminate.
Qed.

(** C5: when validation of the normalized text succeeds, [send_word]
    returns the word the text resolves to, with the score one higher and
    that word appended to the chain; when validation raises, [send_word]
    raises the same failure and the instance is unchanged. *)
Theorem send_word_atomic (text : str) (g : Game) :
  match fst (_validate (katakana_to_hiragana text) g) with
  | Returned _ =>
      exists w,
        dict_get (known_words g) (katakana_to_hiragana text) = Some w /\
        send_word text g =
          (Returned w,
           mkGame (words g) (known_words g) (seen_words g ++ [w])
                  (player_score g + 1))
  | Raised e => send_word text g = (Raised e, g)
  end.
Proof.
  rewrite send_word_unfold.
  destruct (_validate (katakana_to_hiragana text) g) as [[[]|e] g'] eqn:Ev;
    simpl; [|reflexivity].
  apply _validate_Returned in Ev.
  destruct Ev as (_ & u & c & rest & w & _ & _ & _ & Hd & _).
  exists w. now rewrite Hd.
Qed.

(** [send_word] sees only the normalization of the text. *)
Lemma send_word_normalized (g : Game) (k : str) :
  send_word k g = send_word (katakana_to_hiragana k) g.
Proof.
  rewrite !send_word_unfold. now rewrite katakana_to_hiragana_idem.
Qed.

Lemma katakana_spelling_normalized (h : str) :
  (forall c, In c h ->
     (c < KATAKANA_HIRAGANA_DOUBLE_HYPHEN \/ KATAKANA_LETTER_N < c) /\
     ~ (HIRAGANA_LETTER_VU <= c <= HIRAGANA_LETTER_SMALL_KE) /\
     ~ (HIRAGANA_ITERATION_MARK <= c <= HIRAGANA_VOICED_ITERATION_MARK)) ->
  katakana_to_hiragana (katakana_spelling h) = h.
Proof.
  induction h as [|c h IH]; intros Hh; [reflexivity|].
  simpl. f_equal.
  - destruct (Hh c (or_introl eq_refl)) as (Hk & Hvu & Hit).
    unfold HIRAGANA_LETTER_VU, HIRAGANA_LETTER_SMALL_KE,
      HIRAGANA_ITERATION_MARK, HIRAGANA_VOICED_ITERATION_MARK,
      HIRAGANA_LETTER_SMALL_A, KATAKANA_HIRAGANA_DOUBLE_HYPHEN,
      KATAKANA_LETTER_N in *.
    destruct (((0x3041 <=? c) && (c <=? 0x3096))
              || ((0x309D <=? c) && (c <=? 0x309E))) eqn:E.
    + rewrite katakana_to_hiragana_char_shifted; [lia|].
      apply shifted_range.
      unfold KATAKANA_HIRAGANA_DOUBLE_HYPHEN, KATAKANA_LETTER_N.
      apply orb_true_iff in E.
      rewrite !andb_true_iff, !Z.leb_le in E. lia.
    + apply katakana_to_hiragana_char_kept.
      apply not_true_is_false. intros Hs. apply shifted_range in Hs.
      unfold KATAKANA_HIRAGANA_DOUBLE_HYPHEN, KATAKANA_LETTER_N in Hs. lia.
  - apply IH. intros c' Hc'. apply Hh. now right.
Qed.

(** C9 (as amended): for every state and every hiragana reading that has
    none of the letters from HIRAGANA LETTER VU to HIRAGANA LETTER SMALL KE
    and neither iteration mark, the katakana spelling of the reading
    normalizes to the reading, and submitting the spelling has the same
    outcome as submitting the reading: the same returned word or the same
    failure, and the same resulting instance. *)
Theorem send_word_katakana_spelling (g : Game) (h : str) :
  is_hiragana h = true ->
  (forall c, In c h ->
     ~ (HIRAGANA_LETTER_VU <= c <= HIRAGANA_LETTER_SMALL_KE) /\
     ~ (HIRAGANA_ITERATION_MARK <= c <= HIRAGANA_VOICED_ITERATION_MARK)) ->
  katakana_to_hiragana (katakana_spelling h) = h /\
  send_word (katakana_spelling h) g = send_word h g.
Proof.
  intros Hh Hc.
  assert (Hn : katakana_to_hiragana (katakana_spelling h) = h).
  { apply katakana_spelling_normalized. intros c Hin.
    destruct (Hc c Hin) as [Hvu Hit]. repeat split; try assumption.
    clear Hc Hvu Hit. induction h as [|c0 h IH]; [destruct Hin|].
    unfold is_hiragana in Hh. simpl in Hh.
    apply andb_true_iff in Hh. destruct Hh as [Hc0 Hh].
    destruct Hin as [<- | Hin]; [|now apply IH].
    apply andb_true_iff in Hc0. destruct Hc0 as [_ Hmax].
    apply Z.leb_le in Hmax.
    unfold HIRAGANA_DIGRAPH_YORI, KATAKANA_HIRAGANA_DOUBLE_HYPHEN in *.
    lia. }
  split; [assumption|].
  rewrite (send_word_normalized g (katakana_spelling h)). now rewrite Hn.
Qed.

Lemma send_word_katakana_spelling_witness :
  katakana_spelling [0x3055; 0x308B] = [0x30B5; 0x30EB] /\
  katakana_to_hiragana (katakana_spelling [0x3055; 0x308B])
    = [0x3055; 0x308B] /\
  send_word (katakana_spelling [0x3055; 0x308B]) g_asa =
    send_word [0x3055; 0x308B] g_asa.
Proof.
  split; [reflexivity|].
  apply send_word_katakana_spelling; [reflexivity|].
  intros c [<- | [<- | []]]; vm_compute; split; intros [H1 H2];
    solve [now apply H1 | now apply H2].
Defined.

(** C9 (as stated) fails: the normalizer folds katakana up to KATAKANA
    LETTER N only, so the katakana spelling of a reading with HIRAGANA
    LETTER VU is not normalized back to it; the reading is accepted and
    its spelling is unknown. *)
Lemma send_word_katakana_vu_unknown :
  reachable g_sara /\
  dict_get (known_words g_sara) (kana w_ravu) = Some w_ravu /\
  is_hiragana (kana w_ravu) = true /\
  katakana_spelling (kana w_ravu) = [0x30E9; 0x30F4] /\
  fst (send_word (kana w_ravu) g_sara) = Returned w_ravu /\
  send_word (katakana_spelling (kana w_ravu)) g_sara =
    (Raised (UnknownWordException [0x3089; 0x30F4]), g_sara) /\
  send_word (katakana_spelling (kana w_ravu)) g_sara
    <> send_word (kana w_ravu) g_sara.
Proof.
  repeat split; try reflexivity.
  - now apply (reachable_init 1%nat (always 0) [w_sara; w_ravu] None).
  - vm_compute. discriminate.
Qed.

(** ** The chain *)

Lemma continues_literally prev curr :
  katakana_to_hiragana (kana prev) = kana prev ->
  katakana_to_hiragana (kana curr) = kana curr ->
  continues katakana_to_hiragana prev curr = true ->
  continues literally prev curr = true.
Proof.
  unfold continues, literally. intros Hp Hc.
  destruct (kana curr) as [|c rest]; [discriminate|].
  destruct (list_snoc_cases (kana prev)) as [E | (s & p & E)]; rewrite E in *.
  - discriminate.
  - rewrite last_char_app. simpl head_char.
    rewrite !str_eqb_eq. intros H.
    rewrite katakana_to_hiragana_app in Hp.
    change (katakana_to_hiragana [p]) with [katakana_to_hiragana_char p]
      in Hp.
    apply app_inj_tail in Hp. destruct Hp as [_ Hp].
    change (katakana_to_hiragana (c :: rest))
      with (katakana_to_hiragana_char c :: katakana_to_hiragana rest) in Hc.
    injection Hc as Hc _.
    assert (Hp' : katakana_to_hiragana [p] = [p])
      by (change ([katakana_to_hiragana_char p] = [p]); now rewrite Hp).
    rewrite (fold_small_form_normal p Hp') in H.
    change (katakana_to_hiragana [c]) with [katakana_to_hiragana_char c] in H.
    now rewrite Hc in H.
Qed.

Lemma chain_continuity_literally chain :
  (forall w, In w chain -> katakana_to_hiragana (kana w) = kana w) ->
  chain_continuity katakana_to_hiragana chain = true ->
  chain_continuity literally chain = true.
Proof.
  induction chain as [|prev chain IH]; [reflexivity|].
  destruct chain as [|curr chain]; [reflexivity|].
  intros Hn H. simpl in H. apply andb_true_iff in H. destruct H as [H1 H2].
  change (continues literally prev curr &&
          chain_continuity literally (curr :: chain) = true).
  apply andb_true_iff. split.
  - apply continues_literally; auto; apply Hn; simpl; auto.
  - apply IH; [|assumption]. intros w Hw. apply Hn. now right.
Qed.

(** C3 (as amended): in every reachable state each word of the chain
    starts, once normalized, with the normalized folded last mora of the
    word before it; and when every reading in the index is already in
    normalized form, each word starts literally with the folded last mora
    of the word before it. *)
Theorem played_chain_continuity (g : Game) :
  reachable g ->
  chain_continuity katakana_to_hiragana (seen_words g) = true /\
  ((forall w, In w (dict_values (known_words g)) ->
              katakana_to_hiragana (kana w) = kana w) ->
   chain_continuity literally (seen_words g) = true).
Proof.
  intros Hr. apply reachable_chain_invariant in Hr.
  destruct Hr as (_ & _ & _ & Hc & _ & Hincl).
  split; [assumption|]. intros Hn.
  apply chain_continuity_literally; [|assumption].
  intros w Hw. apply Hn, Hincl, Hw.
Qed.

Lemma played_chain_continuity_witness :
  chain_continuity katakana_to_hiragana (seen_words g_kata_SARU) = true /\
  chain_continuity literally (seen_words g_asa_saru) = true.
Proof.
  split.
  - exact (proj1 (played_chain_continuity g_kata_SARU
                    reachable_g_kata_SARU)).
  - apply (proj2 (played_chain_continuity g_asa_saru reachable_g_asa_saru)).
    intros w Hw. vm_compute in Hw.
    destruct Hw as [<- | [<- | [<- | []]]]; reflexivity.
Defined.

(** C3 (as stated) fails: the index is keyed by normalized readings but
    holds the words as given, so a katakana word accepted after a hiragana
    one starts with another code point than the required unit. *)
Lemma played_chain_not_literally_continuous :
  ~ (forall g, reachable g -> chain_continuity literally (seen_words g) = true).
Proof.
  intros H. specialize (H g_kata_SARU reachable_g_kata_SARU).
  vm_compute in H. discriminate.
Qed.

(** C4: in every reachable state no word occurs twice in the chain. *)
Theorem played_chain_no_repeat (g : Game) :
  reachable g -> NoDup (seen_words g).
Proof.
  intros Hr. apply reachable_chain_invariant in Hr.
  now destruct Hr as (_ & _ & Hnd & _).
Qed.

Lemma played_chain_no_repeat_witness : NoDup (seen_words g_asa_saru).
Proof. apply played_chain_no_repeat. exact reachable_g_asa_saru. Defined.

(** ** The engine's move *)

(** C2: with a one-word chain [next_word] returns that word and changes
    nothing.  Otherwise the sample is the first ten, at most, entries of
    the index, in its order, that start with the required unit, are not
    in the chain, are nouns and do not end in the forbidden unit; with an
    empty sample, that is when the index has no such entry, [next_word]
    raises the concession; else it returns the entry of the sample at the
    drawn position, appended to the chain, the score unchanged. *)
Theorem next_word_chooses (g : Game) (r : nat) :
  reachable g ->
  (forall w, seen_words g = [w] -> next_word r g = (Returned w, g)) /\
  (length (seen_words g) <> 1%nat ->
   exists unit sample,
     required_unit (seen_words g) = Some unit /\
     sample = firstn 10 (filter (candidate unit (seen_words g))
                                (dict_values (known_words g))) /\
     (forall w, candidate unit (seen_words g) w = true <->
                (exists rest, kana w = unit ++ rest) /\
                ~ In w (seen_words g) /\ is_noun w = true /\
                last_char (kana w) <> Some HIRAGANA_LETTER_N) /\
     (length sample <= 10)%nat /\
     (forall w, In w sample -> legal_reply g unit w) /\
     ((exists w, legal_reply g unit w) -> sample <> []) /\
     match sample with
     | [] => next_word r g = (Raised (InvalidWordException GiveUp), g)
     | _ :: _ =>
         exists w,
           nth_error sample (r mod length sample)%nat = Some w /\
           next_word r g =
             (Returned w,
              mkGame (words g) (known_words g) (seen_words g ++ [w])
                     (player_score g))
     end).
Proof.
  intros Hr. apply reachable_chain_invariant in Hr.
  split; [intros w E; now apply next_word_single|].
  intros Hlen.
  destruct (chain_invariant_last_mora g Hr)
    as (l & prev & s & p & _ & _ & Hm).
  set (u := fold_small_form [p]) in *.
  exists u, (firstn 10 (filter (candidate u (seen_words g))
                               (dict_values (known_words g)))).
  split; [now apply required_unit_last_mora|].
  split; [reflexivity|].
  split; [intros w; apply candidate_true|].
  split; [apply firstn_le_length|].
  split.
  { intros w Hw. apply In_firstn, filter_In in Hw. destruct Hw as [Hin Hc].
    apply candidate_true in Hc. unfold legal_reply. tauto. }
  split.
  { intros [w (Hin & Hs & Hn & Hnoun & He)] Hnil.
    assert (Hf : In w (filter (candidate u (seen_words g))
                              (dict_values (known_words g)))).
    { apply filter_In. split; [assumption|]. apply candidate_true. tauto. }
    destruct (filter (candidate u (seen_words g))
                     (dict_values (known_words g))); [destruct Hf|].
    discriminate. }
  rewrite (next_word_unfold r g u Hlen Hm).
  destruct (firstn 10 _) as [|c cs] eqn:Ec; [reflexivity|].
  destruct (choice r (c :: cs)) as [w|e] eqn:Ech; [|discriminate].
  exists w. split; [now apply choice_nth_error | reflexivity].
Qed.

Lemma next_word_chooses_witness :
  next_word 7 g_asa = (Returned w_asa, g_asa) /\
  exists unit sample,
    required_unit (seen_words g_asa_saru) = Some unit /\
    sample = firstn 10 (filter (candidate unit (seen_words g_asa_saru))
                               (dict_values (known_words g_asa_saru))).
Proof.
  split.
  - apply (proj1 (next_word_chooses g_asa 7 reachable_g_asa)). reflexivity.
  - destruct (proj2 (next_word_chooses g_asa_saru 7 reachable_g_asa_saru))
      as (u & sample & H1 & H2 & _); [discriminate|].
    now exists u, sample.
Defined.

(** ** Termination *)

Lemma initial_ok_Raised w e : initial_ok w = Raised e -> e = IndexError.
Proof.
  unfold initial_ok. destruct (is_noun w); [|discriminate].
  destruct (str_last (kana w)) as [c|e'] eqn:E; [discriminate|].
  apply str_last_Raised in E. destruct E as [_ ->]. now intros [= <-].
Qed.

(** A drawn key is a key of the index. *)
Lemma choice_key_getitem r known key :
  choice r (dict_keys known) = Returned key ->
  exists w, dict_getitem known key = Returned w /\ In (key, w) known.
Proof.
  intros H. apply choice_In, dict_get_key in H. destruct H as [w H].
  exists w. split; [now apply dict_getitem_Returned | now apply dict_get_In].
Qed.

Lemma pick_initial_Raised fuel rnd known e :
  pick_initial fuel rnd known = Some (Raised e) -> e = IndexError.
Proof.
  revert rnd; induction fuel as [|fuel IH]; intros rnd; simpl;
    [discriminate|].
  destruct (choice (rnd 0%nat) (dict_keys known)) as [key|e'] eqn:Ec.
  - destruct (choice_key_getitem _ _ _ Ec) as (w & -> & _).
    destruct (initial_ok w) as [[|]|e'] eqn:Eo; [discriminate | apply IH |].
    intros [= <-]. now apply initial_ok_Raised in Eo.
  - apply choice_Raised in Ec. destruct Ec as [_ ->]. now intros [= <-].
Qed.

(** The loop has left by the first draw of a qualifying entry. *)
Lemma pick_initial_hit known n rnd key first :
  choice (rnd n) (dict_keys known) = Returned key ->
  dict_get known key = Some first ->
  qualifies first = true ->
  exists r, pick_initial (S n) rnd known = Some r.
Proof.
  revert rnd; induction n as [|n IH]; intros rnd Hc Hd Hq.
  - simpl. rewrite Hc. apply dict_getitem_Returned in Hd. rewrite Hd.
    apply initial_ok_qualifies in Hq. rewrite Hq. eauto.
  - change (pick_initial (S (S n)) rnd known) with
      (match choice (rnd O) (dict_keys known) with
       | Raised e => Some (Raised e)
       | Returned key =>
           match dict_getitem known key with
           | Raised e => Some (Raised e)
           | Returned first =>
               match initial_ok first with
               | Raised e => Some (Raised e)
               | Returned true => Some (Returned first)
               | Returned false =>
                   pick_initial (S n) (fun k => rnd (S k)) known
               end
           end
       end).
    destruct (choice (rnd 0%nat) (dict_keys known)) as [k0|e]; [|eauto].
    destruct (dict_getitem known k0) as [w|e]; [|eauto].
    destruct (initial_ok w) as [[|]|e]; eauto.
Qed.

(** Without a qualifying entry the loop never leaves. *)
Lemma pick_initial_diverges known :
  known <> [] ->
  (forall k w, In (k, w) known -> initial_ok w = Returned false) ->
  forall fuel rnd, pick_initial fuel rnd known = None.
Proof.
  intros Hne Hall fuel; induction fuel as [|fuel IH]; intros rnd;
    [reflexivity|].
  simpl.
  destruct (choice (rnd 0%nat) (dict_keys known)) as [key|e] eqn:Ec.
  - destruct (choice_key_getitem _ _ _ Ec) as (w & -> & Hin).
    rewrite (Hall _ _ Hin). apply IH.
  - apply choice_Raised in Ec. destruct Ec as [Ec _].
    destruct known; [contradiction | discriminate].
Qed.

Lemma send_word_typed g text :
  chain_invariant g -> text <> [] ->
  (exists w g', send_word text g = (Returned w, g')) \/
  send_word text g =
    (Raised (UnknownWordException (katakana_to_hiragana text)), g) \/
  exists msg, send_word text g = (Raised (InvalidWordException msg), g).
Proof.
  intros Hinv Ht.
  destruct (chain_invariant_last_mora g Hinv)
    as (l & prev & s & p & _ & _ & Hm).
  rewrite send_word_unfold, (_validate_unfold _ _ _ Hm).
  destruct (katakana_to_hiragana text) as [|c rest] eqn:Et.
  { destruct text; [contradiction | discriminate]. }
  destruct (negb _); [right; right; eauto|].
  destruct (dict_get (known_words g) (c :: rest)) as [w|]; [|right; now left].
  destruct (word_in w (seen_words g)); [right; right; eauto|].
  destruct (negb (is_noun w)); [right; right; eauto|].
  destruct (endswith (c :: rest) hiragana_n); [right; right; eauto|].
  left. eauto.
Qed.

Lemma next_word_typed g r :
  chain_invariant g ->
  (exists w g', next_word r g = (Returned w, g')) \/
  next_word r g = (Raised (InvalidWordException GiveUp), g).
Proof.
  intros Hinv.
  destruct (Nat.eq_dec (length (seen_words g)) 1) as [Hlen | Hlen].
  - left. destruct (seen_words g) as [|w [|? ?]] eqn:E; try discriminate.
    exists w, g. now apply next_word_single.
  - destruct (chain_invariant_last_mora g Hinv)
      as (l & prev & s & p & _ & _ & Hm).
    rewrite (next_word_unfold r g _ Hlen Hm).
    destruct (firstn 10 _) as [|c cs]; [now right|].
    left. destruct (choice r (c :: cs)) as [w|e] eqn:Ech; [eauto|].
    discriminate.
Qed.

(** C6 (as stated) fails: with a non-empty word list whose only entry ends
    in the forbidden unit, the loop of construction never leaves, whatever
    the generator draws. *)
Lemma Game_init_loops_forever :
  (forall fuel rnd, Game_init fuel rnd [w_hon] None = None) /\
  ~ (forall ws max_rank rnd, ws <> [] ->
       exists fuel r, Game_init fuel rnd ws max_rank = Some r).
Proof.
  assert (H : forall fuel rnd, Game_init fuel rnd [w_hon] None = None).
  { intros fuel rnd. unfold Game_init.
    rewrite pick_initial_diverges; [reflexivity | discriminate |].
    intros k w Hin. vm_compute in Hin. destruct Hin as [[= <- <-] | []].
    reflexivity. }
  split; [assumption|].
  intros Hall.
  destruct (Hall [w_hon] None (always 0)) as (fuel & r & Hr);
    [discriminate|].
  rewrite H in Hr. discriminate.
Qed.

(** * Further properties of [game.py] *)

(** ** Scripts and the normalizer *)

Ltac codes :=
  unfold HIRAGANA_LETTER_SMALL_A, HIRAGANA_LETTER_N, HIRAGANA_DIGRAPH_YORI,
    KATAKANA_HIRAGANA_DOUBLE_HYPHEN, KATAKANA_LETTER_SMALL_A,
    KATAKANA_LETTER_N, KATAKANA_DIGRAPH_KOTO in *.

Lemma is_hiragana_cons c text :
  is_hiragana (c :: text) = true <->
  (HIRAGANA_LETTER_SMALL_A <= c <= HIRAGANA_DIGRAPH_YORI) /\
  is_hiragana text = true.
Proof.
  unfold is_hiragana; simpl.
  rewrite !andb_true_iff, Z.geb_le, Z.leb_le. tauto.
Qed.

Lemma is_katakana_cons c text :
  is_katakana (c :: text) = true <->
  (KATAKANA_HIRAGANA_DOUBLE_HYPHEN <= c <= KATAKANA_DIGRAPH_KOTO) /\
  is_katakana text = true.
Proof.
  unfold is_katakana; simpl.
  rewrite !andb_true_iff, Z.geb_le, Z.leb_le. tauto.
Qed.

Lemma shifted_false_range c :
  shifted c = false <->
  c < KATAKANA_HIRAGANA_DOUBLE_HYPHEN \/ KATAKANA_LETTER_N < c.
Proof.
  pose proof (shifted_range c) as H.
  destruct (shifted c); split; intros H'; try discriminate; try reflexivity.
  - assert (Hc : KATAKANA_HIRAGANA_DOUBLE_HYPHEN <= c <= KATAKANA_LETTER_N)
      by now apply H.
    lia.
  - destruct (Z_lt_le_dec c KATAKANA_HIRAGANA_DOUBLE_HYPHEN); [now left|].
    destruct (Z_lt_le_dec KATAKANA_LETTER_N c); [now right|].
    assert (true = true -> False); [|tauto].
    intros _. assert (Hf : false = true) by (apply H; lia). discriminate.
Qed.

(** X1: a text written in hiragana is left as it is by the normalizer. *)
Theorem katakana_to_hiragana_fixes_hiragana (text : str) :
  is_hiragana text = true -> katakana_to_hiragana text = text.
Proof.
  induction text as [|c text IH]; [reflexivity|].
  intros H. apply is_hiragana_cons in H. destruct H as [Hc Ht].
  simpl. rewrite katakana_to_hiragana_char_kept.
  - f_equal. now apply IH.
  - apply shifted_false_range. codes. lia.
Qed.

Lemma katakana_to_hiragana_fixes_hiragana_witness :
  katakana_to_hiragana [0x3055; 0x308B] = [0x3055; 0x308B].
Proof. apply katakana_to_hiragana_fixes_hiragana. reflexivity. Defined.

(** X2: the two scripts share no character: no text but the empty one is
    both hiragana and katakana. *)
Theorem hiragana_katakana_disjoint (text : str) :
  text <> [] -> is_hiragana text && is_katakana text = false.
Proof.
  destruct text as [|c text]; [contradiction|]. intros _.
  apply not_true_is_false. intros H. apply andb_true_iff in H.
  destruct H as [Hh Hk].
  apply is_hiragana_cons in Hh. apply is_katakana_cons in Hk.
  codes. lia.
Qed.

Lemma hiragana_katakana_disjoint_witness :
  is_hiragana [0x3055; 0x30EB] && is_katakana [0x3055; 0x30EB] = false.
Proof. apply hiragana_katakana_disjoint. discriminate. Defined.

(** X3: a text whose characters all lie between KATAKANA LETTER SMALL A
    and KATAKANA LETTER N is katakana, and its normalization is hiragana of
    the same length. *)
Theorem katakana_to_hiragana_gives_hiragana (text : str) :
  (forall c, In c text ->
             KATAKANA_LETTER_SMALL_A <= c <= KATAKANA_LETTER_N) ->
  is_katakana text = true /\
  is_hiragana (katakana_to_hiragana text) = true /\
  length (katakana_to_hiragana text) = length text.
Proof.
  intros H. split; [|split; [|apply katakana_to_hiragana_length]].
  - induction text as [|c text IH]; [reflexivity|].
    apply is_katakana_cons. split.
    + specialize (H c (or_introl eq_refl)). codes. lia.
    + apply IH. intros c' Hc'. apply H. now right.
  - induction text as [|c text IH]; [reflexivity|].
    change (katakana_to_hiragana (c :: text))
      with (katakana_to_hiragana_char c :: katakana_to_hiragana text).
    apply is_hiragana_cons. split.
    + specialize (H c (or_introl eq_refl)).
      rewrite katakana_to_hiragana_char_shifted
        by (apply shifted_range; codes; lia).
      codes. lia.
    + apply IH. intros c' Hc'. apply H. now right.
Qed.

Lemma katakana_to_hiragana_gives_hiragana_witness :
  is_katakana [0x30B5; 0x30EB] = true /\
  is_hiragana (katakana_to_hiragana [0x30B5; 0x30EB]) = true /\
  length (katakana_to_hiragana [0x30B5; 0x30EB]) = 2%nat.
Proof.
  apply (katakana_to_hiragana_gives_hiragana [0x30B5; 0x30EB]).
  intros c [<- | [<- | []]]; vm_compute; split; discriminate.
Defined.

Lemma katakana_to_hiragana_char_inj x y :
  is_katakana [x] = true -> is_katakana [y] = true ->
  katakana_to_hiragana_char x = katakana_to_hiragana_char y -> x = y.
Proof.
  intros Hx Hy. apply is_katakana_cons in Hx, Hy.
  destruct Hx as [Hx _], Hy as [Hy _].
  destruct (shifted x) eqn:Ex, (shifted y) eqn:Ey.
  - rewrite !katakana_to_hiragana_char_shifted by assumption. lia.
  - rewrite (katakana_to_hiragana_char_shifted _ Ex),
      (katakana_to_hiragana_char_kept _ Ey).
    apply shifted_range in Ex. codes. lia.
  - rewrite (katakana_to_hiragana_char_shifted _ Ey),
      (katakana_to_hiragana_char_kept _ Ex).
    apply shifted_range in Ey. codes. lia.
  - now rewrite !katakana_to_hiragana_char_kept by assumption.
Qed.

(** X4: two katakana texts with the same normalization are the same text:
    the normalizer merges no two katakana spellings. *)
Theorem katakana_to_hiragana_injective_on_katakana (a b : str) :
  is_katakana a = true -> is_katakana b = true ->
  katakana_to_hiragana a = katakana_to_hiragana b -> a = b.
Proof.
  revert b; induction a as [|x a IH]; intros [|y b] Ha Hb H;
    try discriminate; [reflexivity|].
  apply is_katakana_cons in Ha, Hb.
  destruct Ha as [Hx Ha], Hb as [Hy Hb].
  change (katakana_to_hiragana_char x :: katakana_to_hiragana a =
          katakana_to_hiragana_char y :: katakana_to_hiragana b) in H.
  injection H as Hc Ht. f_equal.
  - apply katakana_to_hiragana_char_inj; try assumption;
      apply is_katakana_cons; now split.
  - now apply IH.
Qed.

Lemma katakana_to_hiragana_injective_on_katakana_witness :
  [0x30B5; 0x30EB] = [0x30B5; 0x30EB].
Proof.
  apply katakana_to_hiragana_injective_on_katakana; reflexivity.
Defined.

(** X5: a normalized text holds no character from U+30A0 to KATAKANA
    LETTER N, whatever the input was. *)
Theorem katakana_to_hiragana_leaves_no_katakana (text : str) (c : char) :
  In c (katakana_to_hiragana text) ->
  c < KATAKANA_HIRAGANA_DOUBLE_HYPHEN \/ KATAKANA_LETTER_N < c.
Proof.
  unfold katakana_to_hiragana. rewrite in_map_iff. intros (c0 & <- & _).
  apply shifted_false_range, katakana_to_hiragana_char_not_shifted.
Qed.

Lemma katakana_to_hiragana_leaves_no_katakana_witness :
  0x3055 < KATAKANA_HIRAGANA_DOUBLE_HYPHEN \/ KATAKANA_LETTER_N < 0x3055.
Proof.
  apply (katakana_to_hiragana_leaves_no_katakana [0x30B5; 0x30EB]).
  left. reflexivity.
Defined.

(** ** The index built by construction *)

Lemma dict_get_set k v d k' :
  dict_get (dict_set k v d) k' =
  if str_eqb k k' then Some v else dict_get d k'.
Proof.
  induction d as [|[k0 v0] d IH]; simpl.
  - reflexivity.
  - destruct (str_eqb k0 k) eqn:E; simpl.
    + apply str_eqb_eq in E. subst k0. now destruct (str_eqb k k').
    + destruct (str_eqb k0 k') eqn:E'; [|assumption].
      apply str_eqb_eq in E'. subst k0.
      apply str_eqb_neq in E.
      assert (E'' : str_eqb k k' = false) by (apply str_eqb_neq; congruence).
      now rewrite E''.
Qed.

Lemma dict_keys_set k v d :
  dict_keys (dict_set k v d) =
  if dict_contains k d then dict_keys d else dict_keys d ++ [k].
Proof.
  unfold dict_contains.
  induction d as [|[k0 v0] d IH]; simpl; [reflexivity|].
  destruct (str_eqb k0 k); simpl; [reflexivity|].
  rewrite IH. now destruct (dict_get d k).
Qed.

Lemma dict_contains_In k d : dict_contains k d = true <-> In k (dict_keys d).
Proof.
  rewrite dict_contains_keys, existsb_exists. split.
  - intros (x & Hx & E). apply str_eqb_eq in E. now subst.
  - intros H. exists k. split; [assumption | apply str_eqb_refl].
Qed.

Lemma dict_set_NoDup k v d :
  NoDup (dict_keys d) -> NoDup (dict_keys (dict_set k v d)).
Proof.
  intros H. rewrite dict_keys_set.
  destruct (dict_contains k d) eqn:E; [assumption|].
  apply NoDup_snoc; [assumption|].
  intros Hin. apply dict_contains_In in Hin. congruence.
Qed.

Lemma find_app {A} (f : A -> bool) l1 l2 :
  find f (l1 ++ l2) =
  match find f l1 with Some x => Some x | None => find f l2 end.
Proof.
  induction l1 as [|a l1 IH]; simpl; [reflexivity|]. now destruct (f a).
Qed.

Lemma build_known_words_fold ws max_rank :
  build_known_words ws max_rank = fold_left (known_words_step max_rank) ws [].
Proof. reflexivity. Qed.

Lemma fold_known_words_get ws max_rank d k :
  dict_get (fold_left (known_words_step max_rank) ws d) k =
  match find (fun w => (rank w <=? max_rank) &&
                       str_eqb (katakana_to_hiragana (kana w)) k) (rev ws)
  with
  | Some w => Some w
  | None => dict_get d k
  end.
Proof.
  revert d; induction ws as [|w ws IH]; intros d; simpl; [reflexivity|].
  rewrite IH, find_app. 
  destruct (find _ (rev ws)); [reflexivity|].
  unfold known_words_step; simpl.
  destruct (rank w <=? max_rank); simpl; [|reflexivity].
  rewrite dict_get_set.
  now destruct (str_eqb (katakana_to_hiragana (kana w)) k).
Qed.

Lemma fold_known_words_entries (P : str * GameWord -> Prop) ws max_rank d :
  (forall kw, In kw d -> P kw) ->
  (forall w, In w ws -> rank w <= max_rank ->
             P (katakana_to_hiragana (kana w), w)) ->
  forall kw, In kw (fold_left (known_words_step max_rank) ws d) -> P kw.
Proof.
  revert d; induction ws as [|w ws IH]; intros d Hd Hw; simpl;
    [assumption|].
  apply IH.
  - unfold known_words_step.
    destruct (Z.leb_spec (rank w) max_rank) as [Hle|_]; [|assumption].
    intros kw H. apply dict_set_In in H. destruct H as [H | ->]; [auto|].
    apply Hw; [now left | assumption].
  - intros w' Hin. apply Hw. now right.
Qed.

Lemma fold_known_words_NoDup ws max_rank d :
  NoDup (dict_keys d) ->
  NoDup (dict_keys (fold_left (known_words_step max_rank) ws d)).
Proof.
  revert d; induction ws as [|w ws IH]; intros d Hd; simpl; [assumption|].
  apply IH. unfold known_words_step.
  destruct (rank w <=? max_rank); [now apply dict_set_NoDup | assumption].
Qed.

Lemma max_by_rank_acc ws w0 : rank w0 <= rank (max_by_rank w0 ws).
Proof.
  unfold max_by_rank. revert w0; induction ws as [|x ws IH]; intros w0;
    simpl; [lia|].
  destruct (Z.gtb_spec (rank x) (rank w0)) as [Hgt | Hle].
  - specialize (IH x). lia.
  - apply IH.
Qed.

Lemma max_by_rank_ge ws w0 w :
  In w (w0 :: ws) -> rank w <= rank (max_by_rank w0 ws).
Proof.
  intros [<- | Hin]; [apply max_by_rank_acc|].
  revert w0; induction ws as [|x ws IH]; intros w0; [destruct Hin|].
  change (max_by_rank w0 (x :: ws))
    with (max_by_rank (if rank x >? rank w0 then x else w0) ws).
  destruct Hin as [<- | Hin]; [|now apply IH].
  destruct (Z.gtb_spec (rank x) (rank w0)) as [Hgt | Hle].
  - apply max_by_rank_acc.
  - pose proof (max_by_rank_acc ws w0). lia.
Qed.

(** X6: every entry of the index is a word of the input whose rank is at
    most [max_rank], filed under its normalized reading. *)
Theorem build_known_words_entries ws max_rank k w :
  In (k, w) (build_known_words ws max_rank) ->
  In w ws /\ rank w <= max_rank /\ k = katakana_to_hiragana (kana w).
Proof.
  rewrite build_known_words_fold.
  apply (fold_known_words_entries
           (fun kw => In (snd kw) ws /\ rank (snd kw) <= max_rank /\
                      fst kw = katakana_to_hiragana (kana (snd kw)))
           ws max_rank [] (fun kw H => match H with end)).
  intros w' Hin Hle. simpl. auto.
Qed.

Lemma build_known_words_entries_witness :
  In w_saru hiragana_words /\ rank w_saru <= 1 /\
  [0x3055; 0x308B] = katakana_to_hiragana (kana w_saru).
Proof.
  apply (build_known_words_entries hiragana_words 1 [0x3055; 0x308B] w_saru).
  right. left. reflexivity.
Defined.

Lemma build_known_words_get ws max_rank k :
  dict_get (build_known_words ws max_rank) k =
  find (fun w => (rank w <=? max_rank) &&
                 str_eqb (katakana_to_hiragana (kana w)) k) (rev ws).
Proof.
  rewrite build_known_words_fold, fold_known_words_get.
  now destruct (find _ (rev ws)).
Qed.

(** X7: homophones: a key resolves to the last word of the input, among
    those of rank at most [max_rank], whose normalized reading is the key,
    and to nothing when there is none. *)
Theorem build_known_words_last_wins ws max_rank k :
  dict_get (build_known_words ws max_rank) k =
  find (fun w => (rank w <=? max_rank) &&
                 str_eqb (katakana_to_hiragana (kana w)) k) (rev ws).
Proof. apply build_known_words_get. Qed.

Lemma build_known_words_NoDup ws max_rank :
  NoDup (dict_keys (build_known_words ws max_rank)).
Proof.
  rewrite build_known_words_fold. apply fold_known_words_NoDup. constructor.
Qed.

(** X8: no key occurs twice in the index. *)
Theorem build_known_words_keys_unique ws max_rank :
  NoDup (dict_keys (build_known_words ws max_rank)).
Proof. apply build_known_words_NoDup. Qed.

Lemma initial_index_default_get w0 ws' w :
  In w (w0 :: ws') ->
  exists w',
    dict_get (initial_index w0 ws' None) (katakana_to_hiragana (kana w))
      = Some w' /\
    In w' (w0 :: ws') /\
    katakana_to_hiragana (kana w') = katakana_to_hiragana (kana w).
Proof.
  intros Hin. unfold initial_index.
  set (m := rank (max_by_rank w0 ws')).
  rewrite build_known_words_get.
  destruct (find _ (rev (w0 :: ws'))) as [w'|] eqn:Ef.
  - apply find_some in Ef. destruct Ef as [Hw' Hp].
    apply andb_true_iff in Hp. destruct Hp as [_ Hk].
    apply str_eqb_eq in Hk. exists w'. repeat split; auto.
    now apply in_rev.
  - exfalso. apply in_rev in Hin.
    pose proof (find_none _ _ Ef w Hin) as Hf. simpl in Hf.
    rewrite str_eqb_refl, andb_true_r in Hf.
    apply Z.leb_gt in Hf.
    pose proof (max_by_rank_ge ws' w0 w (proj2 (in_rev _ _) Hin)).
    subst m. lia.
Qed.

(** X9: without [max_rank], no word is filtered out: the normalized
    reading of every word of the input is a key of the index, and resolves
    to a word of the input with that normalized reading. *)
Theorem initial_index_default_keeps_all w0 ws' w :
  In w (w0 :: ws') ->
  exists w',
    dict_get (initial_index w0 ws' None) (katakana_to_hiragana (kana w))
      = Some w' /\
    In w' (w0 :: ws') /\
    katakana_to_hiragana (kana w') = katakana_to_hiragana (kana w).
Proof. apply initial_index_default_get. Qed.

Lemma initial_index_default_keeps_all_witness :
  exists w',
    dict_get (initial_index w_asa [w_SARU] None)
             (katakana_to_hiragana (kana w_SARU)) = Some w' /\
    In w' [w_asa; w_SARU] /\
    katakana_to_hiragana (kana w') = katakana_to_hiragana (kana w_SARU).
Proof.
  apply (initial_index_default_keeps_all w_asa [w_SARU] w_SARU).
  right. left. reflexivity.
Defined.

(** ** Construction, further *)

Lemma pick_initial_Returned_key fuel rnd known first :
  pick_initial fuel rnd known = Some (Returned first) ->
  exists key, dict_get known key = Some first.
Proof.
  revert rnd; induction fuel as [|fuel IH]; intros rnd; simpl;
    [discriminate|].
  destruct (choice (rnd 0%nat) (dict_keys known)) as [key|e]; [|discriminate].
  destruct (dict_getitem known key) as [w|e] eqn:Eg; [|discriminate].
  destruct (initial_ok w) as [[|]|e] eqn:Eo; [| apply IH | discriminate].
  intros [= <-]. exists key. now apply dict_getitem_Returned.
Qed.

Lemma qualifies_inv w :
  qualifies w = true ->
  is_noun w = true /\
  exists s c, kana w = s ++ [c] /\ c <> HIRAGANA_LETTER_N.
Proof.
  unfold qualifies. intros H. apply andb_true_iff in H.
  destruct H as [Hn H]. split; [assumption|].
  destruct (list_snoc_cases (kana w)) as [E | (s & c & E)]; rewrite E in H.
  - discriminate.
  - rewrite last_char_app in H. exists s, c. split; [assumption|].
    intros ->. now rewrite Z.eqb_refl in H.
Qed.

(** X10: what construction returns: the instance holds the input words, a
    score of 0 and a chain of one word; that word is a noun of the input
    with a non-empty reading not ending in hiragana N, its rank is at most
    [max_rank] when one is given, and the index resolves its normalized
    reading to it. *)
Theorem Game_init_postcondition fuel rnd ws max_rank g :
  Game_init fuel rnd ws max_rank = Some (Returned g) ->
  words g = ws /\ player_score g = 0 /\
  NoDup (dict_keys (known_words g)) /\
  exists first,
    seen_words g = [first] /\ In first ws /\ is_noun first = true /\
    (exists s c, kana first = s ++ [c] /\ c <> HIRAGANA_LETTER_N) /\
    (forall m, max_rank = Some m -> rank first <= m) /\
    dict_get (known_words g) (katakana_to_hiragana (kana first))
      = Some first.
Proof.
  intros H. apply Game_init_Returned in H.
  destruct H as (w0 & ws' & first & -> & Hp & ->). simpl.
  split; [reflexivity|]. split; [reflexivity|].
  split; [apply build_known_words_NoDup|].
  exists first.
  destruct (pick_initial_Returned_key _ _ _ _ Hp) as [key Hk].
  apply pick_initial_Returned in Hp. destruct Hp as [_ Hq].
  apply qualifies_inv in Hq. destruct Hq as [Hn Hs].
  pose proof (dict_get_In _ _ _ Hk) as Hin.
  unfold initial_index in Hin, Hk.
  pose proof Hin as Hin'.
  rewrite build_known_words_fold in Hin'.
  apply (fold_known_words_entries
           (fun kw => In (snd kw) (w0 :: ws') /\
                      fst kw = katakana_to_hiragana (kana (snd kw)) /\
                      forall m, max_rank = Some m -> rank (snd kw) <= m))
    in Hin'.
  - simpl in Hin'. destruct Hin' as (Hw & Hkey & Hr).
    repeat split; try assumption.
    unfold initial_index. now rewrite <- Hkey.
  - intros kw [].
  - intros w Hw Hle. simpl. repeat split; try assumption.
    intros m ->. exact Hle.
Qed.

Lemma Game_init_postcondition_witness :
  words g_asa = hiragana_words /\ player_score g_asa = 0 /\
  NoDup (dict_keys (known_words g_asa)) /\
  exists first,
    seen_words g_asa = [first] /\ In first hiragana_words /\
    is_noun first = true /\
    (exists s c, kana first = s ++ [c] /\ c <> HIRAGANA_LETTER_N) /\
    (forall m, @None Z = Some m -> rank first <= m) /\
    dict_get (known_words g_asa) (katakana_to_hiragana (kana first))
      = Some first.
Proof.
  apply (Game_init_postcondition 1 (always 0) hiragana_words None g_asa).
  reflexivity.
Defined.

(** X11: construction raises [RuntimeError] exactly for the empty word
    list. *)
Theorem Game_init_RuntimeError fuel rnd ws max_rank :
  Game_init fuel rnd ws max_rank = Some (Raised RuntimeError) <-> ws = [].
Proof.
  split.
  - destruct ws as [|w0 ws']; [reflexivity|]. unfold Game_init.
    destruct (pick_initial fuel rnd (initial_index w0 ws' max_rank))
      as [[first|e]|] eqn:Ep; try discriminate.
    apply pick_initial_Raised in Ep. subst e. discriminate.
  - now intros ->.
Qed.

Lemma build_known_words_empty ws max_rank :
  (forall w, In w ws -> max_rank < rank w) ->
  build_known_words ws max_rank = [].
Proof.
  intros H. destruct (build_known_words ws max_rank) as [|[k w] d] eqn:E;
    [reflexivity|].
  assert (Hin : In (k, w) (build_known_words ws max_rank))
    by (rewrite E; now left).
  rewrite build_known_words_fold in Hin.
  apply (fold_known_words_entries
           (fun kw => In (snd kw) ws /\ rank (snd kw) <= max_rank)) in Hin.
  - simpl in Hin. destruct Hin as [Hw Hle]. specialize (H w Hw). lia.
  - intros kw [].
  - intros w' Hw' Hle. simpl. auto.
Qed.

(** X12: when [max_rank] is below the rank of every word of a non-empty
    input, the index is empty and construction raises [IndexError] at its
    first draw. *)
Theorem Game_init_empty_index fuel rnd ws m :
  ws <> [] -> (forall w, In w ws -> m < rank w) ->
  Game_init (S fuel) rnd ws (Some m) = Some (Raised IndexError).
Proof.
  intros Hne Hall. destruct ws as [|w0 ws']; [contradiction|].
  unfold Game_init, initial_index.
  now rewrite (build_known_words_empty _ _ Hall).
Qed.

Lemma Game_init_empty_index_witness :
  Game_init 1 (always 0) hiragana_words (Some 0) = Some (Raised IndexError).
Proof.
  apply Game_init_empty_index; [discriminate|].
  intros w [<- | [<- | [<- | []]]]; reflexivity.
Defined.

Lemma initial_ok_false w :
  is_noun w = false \/ (exists s, kana w = s ++ [HIRAGANA_LETTER_N]) ->
  initial_ok w = Returned false.
Proof.
  unfold initial_ok. intros [-> | [s E]]; [reflexivity|].
  destruct (is_noun w); [|reflexivity].
  rewrite E, str_last_app. unfold hiragana_n. now rewrite str_eqb_refl.
Qed.

(** X13: with the default rank, when every word of the input is either no
    noun or ends in hiragana N, the loop of construction never leaves,
    whatever the generator draws. *)
Theorem Game_init_no_qualifying_word w0 ws' :
  (forall w, In w (w0 :: ws') ->
     is_noun w = false \/ exists s, kana w = s ++ [HIRAGANA_LETTER_N]) ->
  forall fuel rnd, Game_init fuel rnd (w0 :: ws') None = None.
Proof.
  intros Hall fuel rnd. unfold Game_init.
  rewrite pick_initial_diverges; [reflexivity | |].
  - destruct (initial_index_default_get w0 ws' w0 (or_introl eq_refl))
      as (w' & Hg & _).
    intros E. rewrite E in Hg. discriminate.
  - intros k w Hin. apply initial_ok_false.
    apply Hall. unfold initial_index in Hin.
    rewrite build_known_words_fold in Hin.
    apply (fold_known_words_entries (fun kw => In (snd kw) (w0 :: ws')))
      in Hin; [exact Hin | intros kw [] | auto].
Qed.

Lemma Game_init_no_qualifying_word_witness :
  Game_init 5 (always 3) [w_hon; mkGameWord [] [0x3042] 1 false] None = None.
Proof.
  apply Game_init_no_qualifying_word.
  intros w [<- | [<- | []]].
  - right. now exists [0x307B].
  - now left.
Defined.

(** ** The moves, further *)

Lemma next_word_no_mora r g e :
  length (seen_words g) <> 1%nat ->
  last_mora g = (Raised e, g) -> next_word r g = (Raised e, g).
Proof.
  intros Hlen Hm. unfold next_word, bind at 1, gets at 1.
  apply Nat.eqb_neq in Hlen. rewrite Hlen.
  unfold bind at 1. now rewrite Hm.
Qed.

(** Every outcome of [next_word], with the instance it leaves. *)
Lemma next_word_cases r g :
  (exists w, seen_words g = [w] /\ next_word r g = (Returned w, g)) \/
  (length (seen_words g) <> 1%nat /\
   ((exists e, next_word r g = (Raised e, g)) \/
    exists w, next_word r g =
                (Returned w,
                 mkGame (words g) (known_words g) (seen_words g ++ [w])
                        (player_score g)))).
Proof.
  destruct (Nat.eq_dec (length (seen_words g)) 1) as [Hlen | Hlen].
  - left. destruct (seen_words g) as [|w [|? ?]] eqn:E; try discriminate.
    exists w. split; [reflexivity | now apply next_word_single].
  - right. split; [assumption|].
    destruct (last_mora_cases g) as [[u Hm] | Hm].
    + rewrite (next_word_unfold r g u Hlen Hm).
      destruct (firstn 10 _) as [|c cs]; [left; eauto|].
      destruct (choice r (c :: cs)) as [w|e]; [right | left]; eauto.
    + left. rewrite (next_word_no_mora r g _ Hlen Hm). eauto.
Qed.

(** Every outcome of [send_word], with the instance it leaves. *)
Lemma send_word_cases text g :
  (exists e, send_word text g = (Raised e, g)) \/
  exists w, send_word text g =
              (Returned w,
               mkGame (words g) (known_words g) (seen_words g ++ [w])
                      (player_score g + 1)).
Proof.
  rewrite send_word_unfold.
  destruct (_validate (katakana_to_hiragana text) g) as [[[]|e] g'];
    [|left; eauto].
  destruct (dict_get (known_words g) (katakana_to_hiragana text));
    [right | left]; eauto.
Qed.

(** X14: neither move changes the word list or the index, whatever its
    outcome; [next_word] never changes the score; and each move leaves the
    chain as it was or with one word added at its end. *)
Theorem moves_keep_index (text : str) (r : nat) (g : Game) :
  (words (snd (send_word text g)) = words g /\
   known_words (snd (send_word text g)) = known_words g /\
   (seen_words (snd (send_word text g)) = seen_words g \/
    exists w, seen_words (snd (send_word text g)) = seen_words g ++ [w])) /\
  (words (snd (next_word r g)) = words g /\
   known_words (snd (next_word r g)) = known_words g /\
   player_score (snd (next_word r g)) = player_score g /\
   (seen_words (snd (next_word r g)) = seen_words g \/
    exists w, seen_words (snd (next_word r g)) = seen_words g ++ [w])).
Proof.
  split.
  - destruct (send_word_cases text g) as [[e ->] | [w ->]]; simpl;
      repeat split; eauto.
  - destruct (next_word_cases r g)
      as [(w & _ & ->) | (_ & [[e ->] | [w ->]])]; simpl;
      repeat split; eauto.
Qed.

(** X15: a successful [send_word] followed by a successful [next_word]
    adds exactly two words to the chain, the player's and then the
    engine's, and one point to the score. *)
Theorem send_word_then_next_word text r g w g1 w' g2 :
  send_word text g = (Returned w, g1) ->
  next_word r g1 = (Returned w', g2) ->
  seen_words g2 = seen_words g ++ [w; w'] /\
  player_score g2 = player_score g + 1 /\
  words g2 = words g /\ known_words g2 = known_words g.
Proof.
  intros Hs Hn. apply send_word_Returned in Hs.
  destruct Hs as (-> & u & c & rest & Hm & _).
  apply last_mora_inv in Hm.
  destruct Hm as (_ & l & prev & s & p & Hl & _).
  destruct (next_word_cases r
              (mkGame (words g) (known_words g) (seen_words g ++ [w])
                      (player_score g + 1)))
    as [(x & Hx & _) | (_ & [[e He] | [x Hx]])].
  - simpl in Hx. rewrite Hl in Hx. destruct l as [|? [|? ?]]; discriminate.
  - rewrite He in Hn. discriminate.
  - rewrite Hx in Hn. injection Hn as <- <-. simpl.
    rewrite <- app_assoc. auto.
Qed.

Lemma send_word_then_next_word_witness :
  exists g2,
    seen_words g2 = seen_words g_asa ++ [w_saru; w_rusu] /\
    player_score g2 = player_score g_asa + 1 /\
    words g2 = words g_asa /\ known_words g2 = known_words g_asa.
Proof.
  exists (snd (next_word 7 g_asa_saru)).
  apply (send_word_then_next_word [0x3055; 0x308B] 7 g_asa w_saru
           g_asa_saru w_rusu); reflexivity.
Defined.

(** ** More invariants of reachable instances *)

Lemma last_char_katakana_to_hiragana s :
  last_char (katakana_to_hiragana s) =
  option_map katakana_to_hiragana_char (last_char s).
Proof.
  destruct (list_snoc_cases s) as [-> | (s' & c & ->)]; [reflexivity|].
  rewrite katakana_to_hiragana_app.
  change (katakana_to_hiragana [c]) with [katakana_to_hiragana_char c].
  now rewrite !last_char_app.
Qed.

Lemma last_char_n_normalized s :
  last_char s = Some HIRAGANA_LETTER_N ->
  last_char (katakana_to_hiragana s) = Some HIRAGANA_LETTER_N.
Proof. intros H. now rewrite last_char_katakana_to_hiragana, H. Qed.

Lemma dict_get_NoDup d k v :
  NoDup (dict_keys d) -> In (k, v) d -> dict_get d k = Some v.
Proof.
  induction d as [|[k0 v0] d IH]; simpl; [tauto|].
  intros Hnd Hin. inversion Hnd as [|? ? Hk0 Hd]; subst.
  destruct Hin as [[= -> ->] | Hin].
  - now rewrite str_eqb_refl.
  - destruct (str_eqb k0 k) eqn:E; [|auto].
    apply str_eqb_eq in E. subst k0. exfalso. apply Hk0.
    unfold dict_keys. change k with (fst (k, v)). now apply in_map.
Qed.

Lemma played_invariant_init fuel rnd ws max_rank g :
  Game_init fuel rnd ws max_rank = Some (Returned g) -> played_invariant g.
Proof.
  intros H. apply Game_init_Returned in H.
  destruct H as (w0 & ws' & first & -> & Hp & ->).
  apply pick_initial_Returned in Hp. destruct Hp as [_ Hq].
  apply qualifies_inv in Hq. destruct Hq as (Hn & s & c & Hk & Hc).
  unfold played_invariant; simpl. repeat split.
  - apply build_known_words_NoDup.
  - intros k w Hin. unfold initial_index in Hin.
    rewrite build_known_words_fold in Hin.
    apply (fold_known_words_entries (fun kw => In (snd kw) (w0 :: ws')))
      in Hin; [exact Hin | intros kw [] | auto].
  - now destruct H as [<- | []].
  - destruct H as [<- | []]. rewrite Hk, last_char_app. congruence.
  - lia.
  - lia.
Qed.

Lemma played_invariant_append g w score :
  played_invariant g ->
  is_noun w = true -> last_char (kana w) <> Some HIRAGANA_LETTER_N ->
  player_score g <= score <= player_score g + 1 ->
  played_invariant
    (mkGame (words g) (known_words g) (seen_words g ++ [w]) score).
Proof.
  intros (Hnd & Hw & Hs & Hsc) Hn Hl Hscore.
  unfold played_invariant; simpl. repeat split; try assumption.
  - apply in_app_iff in H. destruct H as [H | [<- | []]];
      [now apply Hs | assumption].
  - apply in_app_iff in H. destruct H as [H | [<- | []]];
      [now apply Hs | assumption].
  - lia.
  - rewrite length_app; simpl. lia.
Qed.

Lemma played_invariant_send_word text g w g' :
  chain_invariant g -> played_invariant g ->
  send_word text g = (Returned w, g') -> played_invariant g'.
Proof.
  intros Hc Hp H. apply send_word_Returned in H.
  destruct H as (-> & u & c & rest & _ & _ & _ & Hd & _ & Hn & Hl).
  apply played_invariant_append; try assumption; [|lia].
  destruct Hc as (_ & _ & _ & _ & Hkeys & _).
  apply dict_get_In, Hkeys in Hd. rewrite Hd in Hl.
  intros E. now apply Hl, last_char_n_normalized.
Qed.

Lemma played_invariant_next_word r g w g' :
  chain_invariant g -> played_invariant g ->
  next_word r g = (Returned w, g') -> played_invariant g'.
Proof.
  intros Hc Hp H.
  destruct (next_word_Returned r g w g' Hc H)
    as [[_ ->] | (_ & l & prev & s & p & _ & _ & -> & Hn)];
    [assumption|].
  cbv zeta in Hn. apply nth_error_In, In_firstn, filter_In in Hn.
  destruct Hn as [_ Hcand]. apply candidate_true in Hcand.
  destruct Hcand as (_ & _ & Hnoun & Hl).
  apply played_invariant_append; try assumption. lia.
Qed.

Lemma reachable_played_invariant g : reachable g -> played_invariant g.
Proof.
  induction 1 as [fuel rnd ws max_rank g H
                 | g r w g' Hr IH H
                 | g text w g' Hr IH H].
  - now apply (played_invariant_init fuel rnd ws max_rank).
  - apply (played_invariant_next_word r g w g'); try assumption.
    now apply reachable_chain_invariant.
  - apply (played_invariant_send_word text g w g'); try assumption.
    now apply reachable_chain_invariant.
Qed.

(** X16: in every reachable state the score is at least 0 and less than
    the length of the chain. *)
Theorem player_score_bounds (g : Game) :
  reachable g ->
  0 <= player_score g < Z.of_nat (length (seen_words g)).
Proof.
  intros Hr. apply reachable_played_invariant in Hr.
  destruct Hr as (_ & _ & _ & H). lia.
Qed.

Lemma player_score_bounds_witness :
  0 <= player_score g_asa_saru < Z.of_nat (length (seen_words g_asa_saru)).
Proof. apply player_score_bounds. exact reachable_g_asa_saru. Defined.

(** X17: in every reachable state every word of the chain is a noun of
    the input word list, held by the index under its normalized reading,
    with a non-empty reading that does not end in hiragana N. *)
Theorem played_words_are_legal (g : Game) (w : GameWord) :
  reachable g -> In w (seen_words g) ->
  In w (words g) /\
  dict_get (known_words g) (katakana_to_hiragana (kana w)) = Some w /\
  is_noun w = true /\ kana w <> [] /\
  last_char (kana w) <> Some HIRAGANA_LETTER_N.
Proof.
  intros Hr Hin.
  pose proof (reachable_chain_invariant g Hr)
    as (_ & Hk & _ & _ & Hkeys & Hincl).
  pose proof (reachable_played_invariant g Hr) as (Hnd & Hw & Hs & _).
  assert (Hv : In w (dict_values (known_words g))) by now apply Hincl.
  unfold dict_values in Hv. apply in_map_iff in Hv.
  destruct Hv as ([k w'] & Ew & Hkw). simpl in Ew. subst w'.
  pose proof (Hkeys _ _ Hkw) as Ek. subst k.
  destruct (Hs w Hin) as [Hn Hl].
  repeat split; auto.
  - now apply (Hw _ _ Hkw).
  - now apply dict_get_NoDup.
Qed.

Lemma played_words_are_legal_witness :
  In w_SARU (words g_kata_SARU) /\
  dict_get (known_words g_kata_SARU) (katakana_to_hiragana (kana w_SARU))
    = Some w_SARU /\
  is_noun w_SARU = true /\ kana w_SARU <> [] /\
  last_char (kana w_SARU) <> Some HIRAGANA_LETTER_N.
Proof.
  apply (played_words_are_legal g_kata_SARU w_SARU).
  - exact reachable_g_kata_SARU.
  - right. left. reflexivity.
Defined.

Lemma played_word_resolves g w :
  reachable g -> In w (seen_words g) ->
  dict_get (known_words g) (katakana_to_hiragana (kana w)) = Some w.
Proof.
  intros Hr Hin.
  pose proof (reachable_chain_invariant g Hr)
    as (_ & _ & _ & _ & Hkeys & Hincl).
  pose proof (reachable_played_invariant g Hr) as (Hnd & _).
  assert (Hv : In w (dict_values (known_words g))) by now apply Hincl.
  unfold dict_values in Hv. apply in_map_iff in Hv.
  destruct Hv as ([k w'] & Ew & Hkw). simpl in Ew. subst w'.
  pose proof (Hkeys _ _ Hkw) as Ek. subst k.
  now apply dict_get_NoDup.
Qed.

Lemma fold_small_form_katakana p :
  KATAKANA_HIRAGANA_DOUBLE_HYPHEN <= p -> fold_small_form [p] = [p].
Proof.
  intros Hp. unfold fold_small_form, translate, small_to_big; simpl.
  unfold KATAKANA_HIRAGANA_DOUBLE_HYPHEN, HIRAGANA_LETTER_SMALL_YA,
    HIRAGANA_LETTER_SMALL_YU, HIRAGANA_LETTER_SMALL_YO in *.
  repeat match goal with
         | |- context [?a =? ?b] =>
             destruct (Z.eqb_spec a b); [lia|]
         end.
  reflexivity.
Qed.

(** X18: once the chain ends in a word whose reading ends in a katakana
    character from U+30A0 to KATAKANA LETTER N, no text is accepted any
    more: the normalized text never starts with that character, so
    [send_word] raises the continuity failure ([IndexError] for the empty
    text) and changes nothing. *)
Theorem send_word_after_katakana g l prev s p text :
  seen_words g = l ++ [prev] -> kana prev = s ++ [p] ->
  KATAKANA_HIRAGANA_DOUBLE_HYPHEN <= p <= KATAKANA_LETTER_N ->
  send_word text g =
    (Raised match text with
            | [] => IndexError
            | _ :: _ =>
                InvalidWordException
                  (NotLastMora (katakana_to_hiragana text) [p])
            end, g).
Proof.
  intros Hl Hk Hp.
  pose proof (last_mora_Returned g l prev s p Hl Hk) as Hm.
  rewrite fold_small_form_katakana in Hm by lia.
  rewrite send_word_unfold, (_validate_unfold _ _ _ Hm).
  destruct text as [|c0 rest]; [reflexivity|].
  change (katakana_to_hiragana (c0 :: rest))
    with (katakana_to_hiragana_char c0 :: katakana_to_hiragana rest).
  assert (E : str_eqb [katakana_to_hiragana_char c0] [p] = false).
  { apply str_eqb_neq. intros [= E].
    pose proof (katakana_to_hiragana_char_not_shifted c0) as Hn.
    rewrite E in Hn. apply shifted_range in Hp. congruence. }
  unfold char in *. now rewrite E.
Qed.

Lemma send_word_after_katakana_witness :
  send_word [0x308B; 0x3059] g_kata_SARU =
    (Raised (InvalidWordException
               (NotLastMora (katakana_to_hiragana [0x308B; 0x3059])
                            [0x30EB])),
     g_kata_SARU).
Proof.
  apply (send_word_after_katakana g_kata_SARU [w_asa] w_SARU [0x30B5]
           0x30EB [0x308B; 0x3059]); try reflexivity.
  vm_compute. split; discriminate.
Defined.

(** X19: in a reachable state the word [send_word] returns has the
    submitted text as its reading, up to normalization; it is a noun of
    the input word list and was not in the chain. *)
Theorem send_word_returns_submitted g text w g' :
  reachable g -> send_word text g = (Returned w, g') ->
  katakana_to_hiragana (kana w) = katakana_to_hiragana text /\
  In w (words g) /\ is_noun w = true /\ ~ In w (seen_words g).
Proof.
  intros Hr H. apply send_word_Returned in H.
  destruct H as (_ & u & c & rest & _ & _ & _ & Hd & Hnew & Hn & _).
  pose proof (reachable_chain_invariant g Hr)
    as (_ & _ & _ & _ & Hkeys & _).
  pose proof (reachable_played_invariant g Hr) as (_ & Hw & _).
  apply dict_get_In in Hd. repeat split; try assumption.
  - symmetry. now apply Hkeys.
  - now apply (Hw _ _ Hd).
Qed.

Lemma send_word_returns_submitted_witness :
  katakana_to_hiragana (kana w_SARU) = katakana_to_hiragana [0x3055; 0x308B]
  /\ In w_SARU (words g_kata) /\ is_noun w_SARU = true /\
  ~ In w_SARU (seen_words g_kata).
Proof.
  apply (send_word_returns_submitted g_kata [0x3055; 0x308B] w_SARU
           g_kata_SARU).
  - now apply (reachable_init 1%nat (always 0) katakana_words None).
  - reflexivity.
Defined.

(** X20: in a reachable state a text that reads, up to normalization,
    like a word of the chain is never accepted: [send_word] raises and
    changes nothing. *)
Theorem send_word_rejects_played g w text :
  reachable g -> In w (seen_words g) ->
  katakana_to_hiragana text = katakana_to_hiragana (kana w) ->
  exists e, send_word text g = (Raised e, g).
Proof.
  intros Hr Hin Ht.
  destruct (send_word_cases text g) as [He | [w' Hs]]; [assumption|].
  exfalso. apply send_word_Returned in Hs.
  destruct Hs as (_ & u & c & rest & _ & _ & _ & Hd & Hnew & _).
  rewrite Ht, (played_word_resolves g w Hr Hin) in Hd.
  injection Hd as <-. contradiction.
Qed.

Lemma send_word_rejects_played_witness :
  exists e, send_word [0x30B5; 0x30EB] g_asa_saru = (Raised e, g_asa_saru).
Proof.
  apply (send_word_rejects_played g_asa_saru w_saru).
  - exact reachable_g_asa_saru.
  - right. left. reflexivity.
  - reflexivity.
Defined.

(** ** The interactive loop *)

Lemma main_loop_nil isspace rnd word g :
  main_loop isspace rnd [] word g = ([Prompt], UncaughtEOFError, g).
Proof. reflexivity. Qed.

Lemma main_loop_blank isspace rnd line lines word g :
  remove_spaces (strip isspace line) = [] ->
  main_loop isspace rnd (line :: lines) word g =
  say [Prompt; AskAgain] (main_loop isspace rnd lines word g).
Proof. intros E. simpl. now rewrite E. Qed.

Lemma main_loop_quit isspace rnd line lines word g :
  remove_spaces (strip isspace line) = quit ->
  main_loop isspace rnd (line :: lines) word g = ([Prompt], Break, g).
Proof. intros E. simpl. now rewrite E. Qed.

Lemma main_loop_send_Raised isspace rnd line lines word g answer e :
  remove_spaces (strip isspace line) = answer ->
  answer <> [] -> answer <> quit ->
  send_word answer g = (Raised e, g) ->
  main_loop isspace rnd (line :: lines) word g =
  match e with
  | UnknownWordException text =>
      say [Prompt; SayUnknown text (kana word)]
          (main_loop isspace rnd lines word g)
  | InvalidWordException msg => ([Prompt; SayInvalid msg], Break, g)
  | _ => ([Prompt], Uncaught e, g)
  end.
Proof.
  intros E Hne Hq Hs. apply str_eqb_neq in Hq.
  cbn [main_loop]. rewrite E.
  destruct answer as [|c rest]; [contradiction|].
  rewrite Hq, Hs. reflexivity.
Qed.

Lemma main_loop_next_Raised isspace rnd line lines word g answer w g1 e :
  remove_spaces (strip isspace line) = answer ->
  answer <> [] -> answer <> quit ->
  send_word answer g = (Returned w, g1) ->
  next_word (rnd O) g1 = (Raised e, g1) ->
  main_loop isspace rnd (line :: lines) word g =
  match e with
  | UnknownWordException text =>
      say [Prompt; SayUnknown text (kana word)]
          (main_loop isspace rnd lines word g1)
  | InvalidWordException msg => ([Prompt; SayInvalid msg], Break, g1)
  | _ => ([Prompt], Uncaught e, g1)
  end.
Proof.
  intros E Hne Hq Hs Hn. apply str_eqb_neq in Hq.
  cbn [main_loop]. rewrite E.
  destruct answer as [|c rest]; [contradiction|].
  rewrite Hq, Hs, Hn. reflexivity.
Qed.

Lemma main_loop_reply isspace rnd line lines word g answer w g1 w' g2 :
  remove_spaces (strip isspace line) = answer ->
  answer <> [] -> answer <> quit ->
  send_word answer g = (Returned w, g1) ->
  next_word (rnd O) g1 = (Returned w', g2) ->
  main_loop isspace rnd (line :: lines) word g =
  say [Prompt; Reply (kana w) (kanji w) (kana w') (kanji w')]
      (main_loop isspace (fun n => rnd (S n)) lines w' g2).
Proof.
  intros E Hne Hq Hs Hn. apply str_eqb_neq in Hq.
  cbn [main_loop]. rewrite E.
  destruct answer as [|c rest]; [contradiction|].
  rewrite Hq, Hs, Hn. reflexivity.
Qed.

Lemma send_word_failure g text e g' :
  chain_invariant g -> text <> [] ->
  send_word text g = (Raised e, g') ->
  (exists t, e = UnknownWordException t) \/
  (exists msg, e = InvalidWordException msg /\ msg <> GiveUp).
Proof.
  intros Hinv Ht.
  destruct (chain_invariant_last_mora g Hinv)
    as (l & prev & s & p & _ & _ & Hm).
  rewrite send_word_unfold, (_validate_unfold _ _ _ Hm).
  destruct (katakana_to_hiragana text) as [|c rest] eqn:Et.
  { destruct text; [contradiction | discriminate]. }
  destruct (negb _);
    [intros [= <- _]; right; eexists; split; [reflexivity | discriminate]|].
  destruct (dict_get (known_words g) (c :: rest)) as [w|];
    [|intros [= <- _]; left; eauto].
  destruct (word_in w (seen_words g));
    [intros [= <- _]; right; eexists; split; [reflexivity | discriminate]|].
  destruct (negb (is_noun w));
    [intros [= <- _]; right; eexists; split; [reflexivity | discriminate]|].
  destruct (endswith (c :: rest) hiragana_n);
    [intros [= <- _]; right; eexists; split; [reflexivity | discriminate]|].
  discriminate.
Qed.

(** The engine's answer to an accepted word, in a reachable state. *)
Lemma next_word_after_send r g text w g1 :
  reachable g -> send_word text g = (Returned w, g1) ->
  reachable g1 /\
  g1 = mkGame (words g) (known_words g) (seen_words g ++ [w])
              (player_score g + 1) /\
  (next_word r g1 = (Raised (InvalidWordException GiveUp), g1) \/
   exists w',
     next_word r g1 =
       (Returned w',
        mkGame (words g1) (known_words g1) (seen_words g1 ++ [w'])
               (player_score g1))).
Proof.
  intros Hr Hs.
  assert (Hr1 : reachable g1) by exact (reachable_send_word _ _ _ _ Hr Hs).
  split; [assumption|].
  pose proof (reachable_chain_invariant g Hr) as (Hne & _).
  destruct (send_word_cases text g) as [[e He] | [x Hx]];
    [rewrite He in Hs; discriminate|].
  rewrite Hx in Hs. injection Hs as -> <-. split; [reflexivity|].
  set (g1 := mkGame (words g) (known_words g) (seen_words g ++ [w])
                    (player_score g + 1)) in *.
  destruct (next_word_cases r g1)
    as [(x & Hx1 & _) | (_ & [[e He] | [w' Hw']])].
  - exfalso. simpl in Hx1. destruct (seen_words g) as [|? [|? ?]];
      [contradiction | discriminate | discriminate].
  - left.
    destruct (next_word_typed g1 r (reachable_chain_invariant g1 Hr1))
      as [(w' & g2 & H2) | H2]; [rewrite He in H2; discriminate | exact H2].
  - right. eauto.
Qed.

Lemma main_loop_spec isspace lines :
  forall rnd word g,
    reachable g ->
    exists out e g',
      main_loop isspace rnd lines word g = (out, e, g') /\
      (e = Break \/ e = UncaughtEOFError) /\
      reachable g' /\
      words g' = words g /\ known_words g' = known_words g /\
      player_score g' =
        player_score g + Z.of_nat (length (filter accepted out)) /\
      length (seen_words g') =
        (length (seen_words g) + length (filter accepted out)
         + length (filter replied out))%nat.
Proof.
  induction lines as [|line lines IH]; intros rnd word g Hr.
  - exists [Prompt], UncaughtEOFError, g. rewrite main_loop_nil. simpl.
    repeat split; auto; lia.
  - remember (remove_spaces (strip isspace line)) as answer eqn:Ea.
    symmetry in Ea.
    destruct (list_eq_dec Z.eq_dec answer []) as [Eb | Hne].
    { subst answer. rewrite (main_loop_blank _ _ _ _ _ _ Eb).
      destruct (IH rnd word g Hr) as (out & e & g' & -> & H).
      exists ([Prompt; AskAgain] ++ out), e, g'. split; [reflexivity|].
      exact H. }
    destruct (list_eq_dec Z.eq_dec answer quit) as [Eq | Hq].
    { subst answer. rewrite (main_loop_quit _ _ _ _ _ _ Eq).
      exists [Prompt], Break, g. simpl. repeat split; auto; lia. }
    destruct (send_word_cases answer g) as [[e He] | [w Hw]].
    + rewrite (main_loop_send_Raised _ _ _ _ _ _ _ _ Ea Hne Hq He).
      destruct (send_word_failure g answer e g
                  (reachable_chain_invariant g Hr) Hne He)
        as [[t ->] | (msg & -> & Hmsg)].
      * destruct (IH rnd word g Hr) as (out & e & g' & -> & H).
        exists ([Prompt; SayUnknown t (kana word)] ++ out), e, g'.
        split; [reflexivity | exact H].
      * exists [Prompt; SayInvalid msg], Break, g.
        split; [reflexivity|].
        assert (Ef : filter accepted [Prompt; SayInvalid msg] = [])
          by (destruct msg; try reflexivity; contradiction).
        rewrite Ef. simpl. repeat split; auto; lia.
    + destruct (next_word_after_send (rnd O) g answer w _ Hr Hw)
        as (Hr1 & _ & [Hn | [w' Hn]]).
      * rewrite (main_loop_next_Raised _ _ _ _ _ _ _ _ _ _ Ea Hne Hq Hw Hn).
        eexists _, Break, _. split; [reflexivity|]. simpl.
        repeat split; auto; try lia.
        rewrite length_app; simpl. lia.
      * rewrite (main_loop_reply _ _ _ _ _ _ _ _ _ _ _ Ea Hne Hq Hw Hn).
        match type of Hn with _ = (_, ?g2) =>
          assert (Hr2 : reachable g2)
            by exact (reachable_next_word _ _ _ _ Hr1 Hn);
          destruct (IH (fun n => rnd (S n)) w' g2 Hr2)
            as (out & e & g' & -> & He & Hr' & Hw' & Hk' & Hs' & Hl')
        end.
        eexists _, e, g'. split; [reflexivity|].
        simpl in *. rewrite !length_app in Hl'. simpl in Hl'.
        repeat split; auto; lia.
Qed.

(** X21: from a reachable state the loop of [main] never ends with a
    failure of the engine: every [UnknownWordException] and
    [InvalidWordException] is caught and nothing else is raised, so the
    loop ends by [break] or because [input] has no line left; the state it
    leaves is reachable, with the same word list and index. *)
Theorem main_loop_catches_engine_failures isspace rnd lines word g :
  reachable g ->
  (snd (fst (main_loop isspace rnd lines word g)) = Break \/
   snd (fst (main_loop isspace rnd lines word g)) = UncaughtEOFError) /\
  reachable (snd (main_loop isspace rnd lines word g)) /\
  words (snd (main_loop isspace rnd lines word g)) = words g /\
  known_words (snd (main_loop isspace rnd lines word g)) = known_words g.
Proof.
  intros Hr.
  destruct (main_loop_spec isspace lines rnd word g Hr)
    as (out & e & g' & -> & He & Hr' & Hw & Hk & _).
  simpl. auto.
Qed.

Lemma main_loop_catches_engine_failures_witness :
  let r := main_loop ascii_space (always 0)
             [[0x3042]; [0x3055; 0x20; 0x308B]; [0x3042]] w_asa g_asa in
  (snd (fst r) = Break \/ snd (fst r) = UncaughtEOFError) /\
  reachable (snd r) /\ words (snd r) = words g_asa /\
  known_words (snd r) = known_words g_asa.
Proof.
  apply main_loop_catches_engine_failures. exact reachable_g_asa.
Defined.

(** X22: from a reachable state, the score the loop of [main] leaves is
    the score it started with plus the number of accepted answers (those
    the engine replied to, and the one after which it gave up); the chain
    has grown by one word for each accepted answer and one for each
    reply. *)
Theorem main_loop_score isspace rnd lines word g :
  reachable g ->
  let out := fst (fst (main_loop isspace rnd lines word g)) in
  let g' := snd (main_loop isspace rnd lines word g) in
  player_score g' =
    player_score g + Z.of_nat (length (filter accepted out)) /\
  length (seen_words g') =
    (length (seen_words g) + length (filter accepted out)
     + length (filter replied out))%nat.
Proof.
  intros Hr.
  destruct (main_loop_spec isspace lines rnd word g Hr)
    as (out & e & g' & -> & _ & _ & _ & _ & Hs & Hl).
  simpl. auto.
Qed.

Lemma main_loop_score_witness :
  let r := main_loop ascii_space (always 0)
             [[0x3042]; [0x3055; 0x20; 0x308B]; [0x3042]] w_asa g_asa in
  player_score (snd r) =
    player_score g_asa + Z.of_nat (length (filter accepted (fst (fst r))))
  /\
  length (seen_words (snd r)) =
    (length (seen_words g_asa) + length (filter accepted (fst (fst r)))
     + length (filter replied (fst (fst r))))%nat.
Proof. apply main_loop_score. exact reachable_g_asa. Defined.


(** ** Construction, draw by draw *)

Lemma drawn_getitem known r w :
  drawn known r = Some w ->
  exists key, choice r (dict_keys known) = Returned key /\
              dict_getitem known key = Returned w.
Proof.
  unfold drawn. destruct (choice r (dict_keys known)) as [key|e];
    [|discriminate].
  intros H. exists key. split; [reflexivity|].
  now apply dict_getitem_Returned.
Qed.

Lemma pick_initial_at known fuel rnd w :
  drawn known (rnd O) = Some w ->
  pick_initial (S fuel) rnd known =
  match initial_ok w with
  | Raised e => Some (Raised e)
  | Returned true => Some (Returned w)
  | Returned false => pick_initial fuel (fun n => rnd (S n)) known
  end.
Proof.
  intros H. apply drawn_getitem in H. destruct H as (key & Hc & Hg).
  simpl. now rewrite Hc, Hg.
Qed.

(** Draws of entries that are passed over only use up iterations. *)
Lemma pick_initial_skip known n :
  forall rnd fuel,
    passes_over_first known rnd n ->
    pick_initial (n + fuel) rnd known =
    pick_initial fuel (fun k => rnd (n + k)%nat) known.
Proof.
  induction n as [|n IH]; intros rnd fuel Hp; [reflexivity|].
  destruct (Hp O) as (w & Hd & Hw); [lia|].
  change (S n + fuel)%nat with (S (n + fuel)).
  rewrite (pick_initial_at _ _ _ _ Hd), (initial_ok_false _ Hw).
  rewrite IH; [reflexivity|].
  intros k Hk. apply (Hp (S k)). lia.
Qed.

Lemma initial_ok_empty_kana w :
  is_noun w = true -> kana w = [] -> initial_ok w = Raised IndexError.
Proof. unfold initial_ok. now intros -> ->. Qed.

Lemma initial_ok_true w :
  is_noun w = true ->
  (exists s c, kana w = s ++ [c] /\ c <> HIRAGANA_LETTER_N) ->
  initial_ok w = Returned true.
Proof.
  intros Hn (s & c & Hk & Hc). apply initial_ok_qualifies.
  unfold qualifies. rewrite Hn, Hk, last_char_app. simpl.
  now apply negb_true_iff, Z.eqb_neq.
Qed.

(** The outcome of the loop at the first draw that is not passed over. *)
Lemma pick_initial_first known rnd n first fuel :
  passes_over_first known rnd n ->
  drawn known (rnd n) = Some first ->
  (n < fuel)%nat ->
  pick_initial fuel rnd known =
  match initial_ok first with
  | Raised e => Some (Raised e)
  | Returned true => Some (Returned first)
  | Returned false => pick_initial fuel rnd known
  end.
Proof.
  intros Hp Hd Hf.
  destruct (initial_ok first) as [[|]|e] eqn:Eo; [|reflexivity|].
  all: replace fuel with (n + S (fuel - S n))%nat by lia.
  all: rewrite (pick_initial_skip known n rnd _ Hp).
  all: rewrite (pick_initial_at known (fuel - S n)
                  (fun k => rnd (n + k)%nat) first)
    by now rewrite Nat.add_0_r.
  all: now rewrite Eo.
Qed.

Lemma pick_initial_not_left known rnd fuel :
  passes_over_first known rnd fuel -> pick_initial fuel rnd known = None.
Proof.
  intros Hp. replace fuel with (fuel + 0)%nat by lia.
  now rewrite (pick_initial_skip known fuel rnd 0%nat Hp).
Qed.

Lemma pick_initial_empty fuel rnd :
  pick_initial (S fuel) rnd [] = Some (Raised IndexError).
Proof. reflexivity. Qed.

Lemma drawn_nonempty known r :
  known <> [] -> exists w, drawn known r = Some w /\
                           In w (dict_values known).
Proof.
  intros Hne. unfold drawn.
  destruct (choice r (dict_keys known)) as [key|e] eqn:Ec.
  - destruct (choice_key_getitem _ _ _ Ec) as (w & Hg & Hin).
    apply dict_getitem_Returned in Hg. exists w. split; [assumption|].
    now apply dict_get_value in Hg.
  - apply choice_Raised in Ec. destruct Ec as [Ec _].
    destruct known; [contradiction | discriminate].
Qed.

(** C6 (as amended): construction from a non-empty word list looks at one
    entry of the index for each draw of the generator, in order, and
    passes over the entries that are no nouns or end in hiragana N.  While
    only such entries have been drawn, the loop has not left; so it never
    leaves when the index is not empty and holds only such entries.  At the
    first draw of another entry it returns the instance with the input
    words, the index, that entry as the only word of the chain and score
    0, or, when the reading of that entry is empty, it raises
    [IndexError].  With an empty index it raises [IndexError] at the first
    draw.  In a reachable state [next_word] returns or raises the
    concession, and [send_word] on a non-empty text returns or raises
    [UnknownWordException] or [InvalidWordException]. *)
Theorem engine_calls_terminate :
  (forall w0 ws' max_rank rnd,
     let known := initial_index w0 ws' max_rank in
     (forall fuel, passes_over_first known rnd fuel ->
                   Game_init fuel rnd (w0 :: ws') max_rank = None) /\
     (known <> [] ->
      (forall w, In w (dict_values known) -> passed_over w) ->
      forall fuel, Game_init fuel rnd (w0 :: ws') max_rank = None) /\
     (forall n first fuel,
        passes_over_first known rnd n ->
        drawn known (rnd n) = Some first ->
        is_noun first = true ->
        (exists s c, kana first = s ++ [c] /\ c <> HIRAGANA_LETTER_N) ->
        (n < fuel)%nat ->
        Game_init fuel rnd (w0 :: ws') max_rank =
          Some (Returned (mkGame (w0 :: ws') known [first] 0))) /\
     (forall n first fuel,
        passes_over_first known rnd n ->
        drawn known (rnd n) = Some first ->
        is_noun first = true -> kana first = [] ->
        (n < fuel)%nat ->
        Game_init fuel rnd (w0 :: ws') max_rank = Some (Raised IndexError))
     /\
     (known = [] ->
      forall fuel, Game_init (S fuel) rnd (w0 :: ws') max_rank =
                   Some (Raised IndexError))) /\
  (forall g r, reachable g ->
     (exists w g', next_word r g = (Returned w, g')) \/
     next_word r g = (Raised (InvalidWordException GiveUp), g)) /\
  (forall g text, reachable g -> text <> [] ->
     (exists w g', send_word text g = (Returned w, g')) \/
     send_word text g =
       (Raised (UnknownWordException (katakana_to_hiragana text)), g) \/
     exists msg, send_word text g = (Raised (InvalidWordException msg), g)).
Proof.
  split; [|split].
  - intros w0 ws' max_rank rnd known.
    assert (Hnot : forall fuel, passes_over_first known rnd fuel ->
                     Game_init fuel rnd (w0 :: ws') max_rank = None).
    { intros fuel Hp. unfold Game_init. fold known.
      now rewrite (pick_initial_not_left known rnd fuel Hp). }
    split; [exact Hnot|]. split; [|split; [|split]].
    + intros Hne Hall fuel. apply Hnot. intros k _.
      destruct (drawn_nonempty known (rnd k) Hne) as (w & Hd & Hin).
      exists w. split; [assumption | now apply Hall].
    + intros n first fuel Hp Hd Hn Hk Hf. unfold Game_init. fold known.
      rewrite (pick_initial_first known rnd n first fuel Hp Hd Hf).
      now rewrite (initial_ok_true first Hn Hk).
    + intros n first fuel Hp Hd Hn Hk Hf. unfold Game_init. fold known.
      rewrite (pick_initial_first known rnd n first fuel Hp Hd Hf).
      now rewrite (initial_ok_empty_kana first Hn Hk).
    + intros Hk fuel. unfold Game_init. fold known. now rewrite Hk.
  - intros g r Hr. now apply next_word_typed, reachable_chain_invariant.
  - intros g text Hr Ht.
    now apply send_word_typed; [apply reachable_chain_invariant|].
Qed.

Lemma engine_calls_terminate_witness :
  Game_init 3 (fun k => k) [w_hon; w_asa; w_saru] None =
    Some (Returned
            (mkGame [w_hon; w_asa; w_saru]
                    (initial_index w_hon [w_asa; w_saru] None) [w_asa] 0))
  /\
  Game_init 2 (always 0) [mkGameWord [] [] 1 true] None =
    Some (Raised IndexError) /\
  ((exists w g', next_word 7 g_asa_saru = (Returned w, g')) \/
   next_word 7 g_asa_saru = (Raised (InvalidWordException GiveUp), g_asa_saru)).
Proof.
  destruct engine_calls_terminate as (Hinit & Hnext & _).
  split; [|split].
  - destruct (Hinit w_hon [w_asa; w_saru] None (fun k => k))
      as (_ & _ & Hret & _).
    apply (Hret 1%nat w_asa 3%nat).
    + intros k Hk. assert (k = O) by lia. subst k.
      exists w_hon. split; [reflexivity|]. right. now exists [0x307B].
    + reflexivity.
    + reflexivity.
    + now exists [0x3042], 0x3055.
    + lia.
  - destruct (Hinit (mkGameWord [] [] 1 true) [] None (always 0))
      as (_ & _ & _ & Hraise & _).
    apply (Hraise 0%nat (mkGameWord [] [] 1 true) 2%nat).
    + intros k Hk. lia.
    + reflexivity.
    + reflexivity.
    + reflexivity.
    + lia.
  - exact (Hnext g_asa_saru 7%nat reachable_g_asa_saru).
Defined.

(** ** How [main] ends *)





